(** * Simulated betting engine: a shallow embedding and its properties

    The development embeds the simulated betting engine of the dashboard:
    the multi-task engine effect of [SimulatedBetting] with its two passes
    (settlement, placement), the helpers [getNextTargetHeight],
    [checkRuleAlignment], [calculateStreak], [getBeadRowBlocks] and
    [runAIAnalysis], the manual gateway [placeBet] and the task commands.
    From the application around the component it embeds the merge that
    keeps the block window and the heights asked for by the back-fill.
    Two earlier generations of the component are embedded where they
    differ: the placement step of the first multi-task engine (module
    [V3]) and the [placeBet] of the single-strategy component (module
    [V2]).

    Numbers.  Block heights, counters and confidence tiers are integers
    ([Z]).  The ledger and the bankroll hold canonical rationals ([Qc]).
    Where the value computed depends on the rounding of the source's
    arithmetic, the computation is done on IEEE doubles (module [F64], over
    the [spec_float] of the standard library, binary64, round to nearest
    even): the Kelly stake and the bias test of the predictor.  A rational
    enters such a computation as the nearest double and the result comes
    back as its exact value.

    Effects.  React state is passed explicitly: one run of the engine effect
    is a function from the committed state to the next committed state, and
    runs do not overlap.  [Math.random] is an oracle [nat -> Qc] read
    through a counter.

    Records.  Fields that only feed the display are left out: the hash,
    result digit and timestamp of a block; the label, trend rows and dragon
    threshold of a rule; the id, timestamp, rule and task names, result
    glyph and strategy label of a wager; the name and creation time of a
    task.

    The first part holds the definitions, the second part the lemmas. *)

From Stdlib Require Import ZArith QArith Qcanon Qround List String Ascii Bool Lia Lqa.
From Stdlib Require Import SpecFloat Sorted Permutation.
Import ListNotations.

Set Implicit Arguments.

(* ------------------------------------------------------------------ *)
(** ** Numbers *)

Module Num.

Definition ofZ (z : Z) : Qc := Q2Qc (inject_Z z).

(** [x < y] and [x <= y] on numbers, as booleans. *)
Definition ltb (x y : Qc) : bool :=
  match (x ?= y)%Qc with Lt => true | _ => false end.

Definition leb (x y : Qc) : bool := negb (ltb y x).

(** [Math.max], [Math.min], [Math.abs], [Math.floor], [Math.round]. *)
Definition max (x y : Qc) : Qc := if ltb x y then y else x.
Definition min (x y : Qc) : Qc := if ltb y x then y else x.
Definition abs (x : Qc) : Qc := if ltb x 0%Qc then (- x)%Qc else x.
Definition floor (x : Qc) : Qc := ofZ (Qfloor x).
Definition round (x : Qc) : Z := Qfloor (x + Q2Qc (1 # 2))%Qc.

(** [x || d] on numbers: [0] is falsy. *)
Definition orElse (x d : Qc) : Qc := if Qc_eq_dec x 0%Qc then d else x.

End Num.

Notation "x <? y" := (Num.ltb x y) : Qc_scope.
Notation "x <=? y" := (Num.leb x y) : Qc_scope.

(* ------------------------------------------------------------------ *)
(** ** Doubles *)

(** The numbers of the source are IEEE binary64 values.  A double is a
    [spec_float] in canonical form; the operations below return canonical
    values on canonical arguments. *)
Module F64.

Definition prec : Z := 53.
Definition emax : Z := 1024.

Definition float : Type := spec_float.

Definition zero : float := S754_zero false.

(** [+], [-], [*], [/] round to nearest, ties to even. *)
Definition add : float -> float -> float := SFadd prec emax.
Definition sub : float -> float -> float := SFsub prec emax.
Definition mul : float -> float -> float := SFmul prec emax.
Definition div : float -> float -> float := SFdiv prec emax.

(** [<], [<=], [===]: false as soon as one side is [NaN]; [-0 === +0]. *)
Definition ltb (x y : float) : bool := SFltb x y.
Definition leb (x y : float) : bool := SFleb x y.
Definition eqb (x y : float) : bool := SFeqb x y.

Definition isNaN (x : float) : bool :=
  match x with S754_nan => true | _ => false end.

Definition isFinite (x : float) : bool :=
  match x with S754_zero _ | S754_finite _ _ _ => true | _ => false end.

(** The double of an integer and of a decimal literal [n/d]: the nearest
    double, as the parser of number literals gives it. *)
Definition ofZ (z : Z) : float := binary_normalize prec emax z 0 false.

Definition ofQ (n : Z) (d : positive) : float :=
  match n with
  | Z0 => zero
  | Zpos m => div (S754_finite false m 0) (S754_finite false d 0)
  | Zneg m => div (S754_finite true m 0) (S754_finite false d 0)
  end.

Definition ofQc (q : Qc) : float := ofQ (Qnum q) (Qden q).

(** The exact value of a finite double; [NaN] and the infinities have no
    value among the rationals and are sent to [0]. *)
Definition toQ (x : float) : Q :=
  match x with
  | S754_finite s m e =>
      let n := if s then Zneg m else Zpos m in
      match e with
      | Zneg k => n # (2 ^ k)
      | _ => inject_Z (n * 2 ^ e)
      end
  | _ => 0
  end.

Definition toQc (x : float) : Qc := Q2Qc (toQ x).

(** [Math.abs], [Math.floor], [Math.max], [Math.min].  [Math.max] and
    [Math.min] give [NaN] when an argument is [NaN] and order [-0] below
    [+0]. *)
Definition abs (x : float) : float := SFabs x.

Definition floor (x : float) : float :=
  match x with
  | S754_finite s m (Zneg k) =>
      ofZ ((if s then Zneg m else Zpos m) / 2 ^ Zpos k)
  | _ => x
  end.

Definition max (x y : float) : float :=
  match SFcompare x y with
  | None => S754_nan
  | Some Lt => y
  | Some Gt => x
  | Some Eq => match x with S754_zero true => y | _ => x end
  end.

Definition min (x y : float) : float :=
  match SFcompare x y with
  | None => S754_nan
  | Some Lt => x
  | Some Gt => y
  | Some Eq => match x with S754_zero false => y | _ => x end
  end.

(** [x || d] on numbers: [0], [-0] and [NaN] are falsy. *)
Definition orElse (x d : float) : float :=
  match x with
  | S754_zero _ | S754_nan => d
  | _ => x
  end.

(** The place of a double on the line of [<]: the class (infinities at
    [-2] and [2], negative and positive numbers at [-1] and [1], both zeros
    at [0]), then exponent and mantissa, negated for negative numbers. *)
Definition key (x : float) : option (Z * Z * Z) :=
  match x with
  | S754_nan => None
  | S754_infinity true => Some (-2, 0, 0)%Z
  | S754_finite true m e => Some (-1, - e, Zneg m)%Z
  | S754_zero _ => Some (0, 0, 0)%Z
  | S754_finite false m e => Some (1, e, Zpos m)%Z
  | S754_infinity false => Some (2, 0, 0)%Z
  end.

Definition lex (a b : Z * Z * Z) : comparison :=
  let '(a1, a2, a3) := a in
  let '(b1, b2, b3) := b in
  match (a1 ?= b1)%Z with
  | Eq => match (a2 ?= b2)%Z with
          | Eq => (a3 ?= b3)%Z
          | c => c
          end
  | c => c
  end.

End F64.

(* ------------------------------------------------------------------ *)
(** ** Blocks and rules (types.ts) *)

Inductive BlockType := ODD | EVEN.
Inductive SizeType := BIG | SMALL.

Record BlockData := mkBlock {
  height : Z;
  type : BlockType;
  sizeType : SizeType
}.

Record IntervalRule := mkRule {
  rule_id : string;
  value : Z;
  startBlock : Z;
  beadRows : Z
}.

(* ------------------------------------------------------------------ *)
(** ** Rule alignment *)

(** [getNextTargetHeight(currentHeight, step, startBlock)].
    [Math.floor(diff / step)] is floor division, that is [Z.div], because
    [step > 1] on that path. *)
Definition getNextTargetHeight (currentHeight step startBlock : Z) : Z :=
  let offset := startBlock in   (* startBlock || 0 *)
  if (step <=? 1)%Z then (currentHeight + 1)%Z
  else
    let diff := (currentHeight - offset)%Z in
    let nextMultiplier := (diff / step + 1)%Z in
    let nextHeight := (offset + nextMultiplier * step)%Z in
    if (currentHeight <? nextHeight)%Z then nextHeight
    else (nextHeight + step)%Z.

(** [checkRuleAlignment(height, rule)].  The JavaScript [%] truncates
    towards zero: it is [Z.rem]. *)
Definition checkRuleAlignment (h : Z) (rule : IntervalRule) : bool :=
  if (value rule <=? 1)%Z then true
  else if (0 <? startBlock rule)%Z then
    (startBlock rule <=? h)%Z && (Z.rem (h - startBlock rule) (value rule) =? 0)%Z
  else (Z.rem h (value rule) =? 0)%Z.

Definition nextAligned (h : Z) (rule : IntervalRule) : Z :=
  getNextTargetHeight h (value rule) (startBlock rule).

(** The rule of the alignment example: step 20, offset 0. *)
Definition rule20 : IntervalRule := mkRule "20" 20 0 6.

(* ------------------------------------------------------------------ *)
(** ** Wagers, configuration and tasks *)

Inductive BetType := PARITY | SIZE.
Inductive BetTarget := T_ODD | T_EVEN | T_BIG | T_SMALL.
Inductive Status := PENDING | WIN | LOSS.

Inductive StrategyType :=
| MANUAL | MARTINGALE | DALEMBERT | FLAT | FIBONACCI | PAROLI | S1326
| CUSTOM | AI_KELLY.

Inductive AutoTargetMode :=
| FIXED_ODD | FIXED_EVEN | FIXED_BIG | FIXED_SMALL
| FOLLOW_LAST | REVERSE_LAST
| GLOBAL_TREND_DRAGON | GLOBAL_BEAD_DRAGON
| AI_PREDICTION | GLOBAL_AI_FULL_SCAN.

(** The string values of a block's two axes, read as bet targets. *)
Definition ofBlockType (t : BlockType) : BetTarget :=
  match t with ODD => T_ODD | EVEN => T_EVEN end.
Definition ofSizeType (t : SizeType) : BetTarget :=
  match t with BIG => T_BIG | SMALL => T_SMALL end.

Definition BetTarget_eqb (a b : BetTarget) : bool :=
  match a, b with
  | T_ODD, T_ODD | T_EVEN, T_EVEN | T_BIG, T_BIG | T_SMALL, T_SMALL => true
  | _, _ => false
  end.

Definition isPending (s : Status) : bool :=
  match s with PENDING => true | _ => false end.

Record BetRecord := mkBet {
  taskId : option string;
  ruleId : string;
  targetHeight : Z;
  betType : BetType;
  prediction : BetTarget;
  amount : Qc;
  odds : Qc;
  status : Status;
  payout : Qc;
  balanceAfter : Qc
}.

Record SimConfig := mkConfig {
  initialBalance : Qc;
  cfg_odds : Qc;
  stopLoss : Qc;
  takeProfit : Qc;
  cfg_baseBet : Qc
}.

Record StrategyConfig := mkStrategy {
  sc_type : StrategyType;
  autoTarget : AutoTargetMode;
  targetType : BetType;
  multiplier : Qc;
  maxCycle : Z;
  sc_step : Qc;
  minStreak : Z;
  customSequence : option (list Qc);
  kellyFraction : option Qc
}.

Record StrategyState := mkState {
  consecutiveLosses : Z;
  currentBetAmount : Qc;
  sequenceIndex : Z
}.

Record TaskStats := mkStats {
  wins : Z;
  losses : Z;
  profit : Qc;
  maxProfit : Qc;
  maxLoss : Qc;
  totalBetAmount : Qc;
  peakProfit : Qc;
  maxDrawdown : Qc
}.

Record AutoTask := mkTask {
  id : string;
  task_ruleId : string;
  tconfig : StrategyConfig;
  baseBet : Qc;
  state : StrategyState;
  isActive : bool;
  stats : TaskStats
}.

Record GlobalMetrics := mkMetrics {
  peakBalance : Qc;
  gm_maxDrawdown : Qc
}.

(** The committed React state of the component. *)
Record EngineState := mkEngine {
  balance : Qc;
  bets : list BetRecord;
  config : SimConfig;
  tasks : list AutoTask;
  globalMetrics : GlobalMetrics
}.

(** [b.taskId === id] and [!b.taskId] (a missing or empty id is falsy). *)
Definition taskIdIs (b : BetRecord) (tid : string) : bool :=
  match taskId b with Some t => String.eqb t tid | None => false end.

Definition taskIdEq (b : BetRecord) (tid : option string) : bool :=
  match taskId b, tid with
  | Some t, Some u => String.eqb t u
  | None, None => true
  | _, _ => false
  end.

Definition noTaskId (b : BetRecord) : bool :=
  match taskId b with None => true | Some t => String.eqb t "" end.

(** Record updates written [{...x, f: v}] in the source. *)
Definition settleRecord (bet : BetRecord) (s : Status) (p after : Qc) : BetRecord :=
  mkBet (taskId bet) (ruleId bet) (targetHeight bet) (betType bet)
        (prediction bet) (amount bet) (odds bet) s p after.

Definition setActive (t : AutoTask) (a : bool) : AutoTask :=
  mkTask (id t) (task_ruleId t) (tconfig t) (baseBet t) (state t) a (stats t).

Definition setProgress (t : AutoTask) (s : TaskStats) (st : StrategyState) : AutoTask :=
  mkTask (id t) (task_ruleId t) (tconfig t) (baseBet t) st (isActive t) s.

(* ------------------------------------------------------------------ *)
(** ** Staking progressions *)

Definition FIB_SEQ : list Qc :=
  map Num.ofZ [1; 1; 2; 3; 5; 8; 13; 21; 34; 55; 89; 144; 233; 377; 610]%Z.
Definition SEQ_1326 : list Qc := map Num.ofZ [1; 3; 2; 6]%Z.

Definition lengthZ {A} (l : list A) : Z := Z.of_nat (List.length l).

(** [seq[i]].  Reading outside the array gives [undefined] in the source and
    the product with it is [NaN]; the engine keeps its indices inside the
    array (the custom sequence is never empty when it comes from the form),
    and the model reads [0] outside. *)
Definition nthNum (l : list Qc) (i : Z) : Qc :=
  if (i <? 0)%Z then 0%Qc else nth (Z.to_nat i) l 0%Qc.

(** The [switch (task.config.type)] of the settlement pass, followed by
    [task.state = { currentBetAmount: Math.floor(currentBetAmount), ... }];
    AI_KELLY resets the state to the base stake instead. *)
Definition advance (cfg : StrategyConfig) (base : Qc) (st : StrategyState)
           (isWin : bool) : StrategyState :=
  let cba := currentBetAmount st in
  let cl := consecutiveLosses st in
  let si := sequenceIndex st in
  match sc_type cfg with
  | AI_KELLY => mkState 0 base 0
  | ty =>
      let '(cba', cl', si') :=
        match ty with
        | MARTINGALE =>
            if negb isWin then
              let nextLosses := (cl + 1)%Z in
              if (maxCycle cfg <=? nextLosses)%Z then (base, 0%Z, si)
              else ((cba * multiplier cfg)%Qc, nextLosses, si)
            else (base, 0%Z, si)
        | DALEMBERT =>
            if negb isWin then ((cba + sc_step cfg)%Qc, (cl + 1)%Z, si)
            else
              let c := (cba - sc_step cfg)%Qc in
              ((if (c <? base)%Qc then base else c), 0%Z, si)
        | FIBONACCI =>
            let i := if negb isWin
                     then Z.min (si + 1) (lengthZ FIB_SEQ - 1)
                     else Z.max 0 (si - 2) in
            ((base * nthNum FIB_SEQ i)%Qc, cl, i)
        | PAROLI =>
            if isWin then
              let i := (si + 1)%Z in
              if (3 <=? i)%Z then (base, cl, 0%Z)
              else ((cba * Num.ofZ 2)%Qc, cl, i)
            else (base, cl, 0%Z)
        | S1326 =>
            if isWin then
              let i := (si + 1)%Z in
              if (lengthZ SEQ_1326 <=? i)%Z then (base, cl, 0%Z)
              else ((base * nthNum SEQ_1326 i)%Qc, cl, i)
            else (base, cl, 0%Z)
        | CUSTOM =>
            let cSeq := match customSequence cfg with
                        | Some s => s
                        | None => [1%Qc]
                        end in
            let i := if negb isWin
                     then if (lengthZ cSeq <=? si + 1)%Z then 0%Z else (si + 1)%Z
                     else 0%Z in
            ((base * nthNum cSeq i)%Qc, cl, i)
        | _ => (base, cl, si)
        end in
      mkState cl' (Num.floor cba') si'
  end.

(** The statistics block of the settlement pass. *)
Definition updateStats (s : TaskStats) (isWin : bool) (pay amt : Qc) : TaskStats :=
  let sessionProfit := ((if isWin then pay else 0) - amt)%Qc in
  let newTotalProfit := (profit s + sessionProfit)%Qc in
  let peak := Num.max (peakProfit s) newTotalProfit in
  mkStats (wins s + (if isWin then 1 else 0))%Z
          (losses s + (if isWin then 0 else 1))%Z
          newTotalProfit
          (Num.max (maxProfit s) newTotalProfit)
          (Num.min (maxLoss s) newTotalProfit)
          (Num.orElse (totalBetAmount s) 0 + amt)%Qc
          peak
          (Num.max (maxDrawdown s) (peak - newTotalProfit)%Qc).

(** What the settlement of one wager does to the task that owns it. *)
Definition settleTask (t : AutoTask) (isWin : bool) (pay amt : Qc) : AutoTask :=
  setProgress t (updateStats (stats t) isWin pay amt)
              (advance (tconfig t) (baseBet t) (state t) isWin).

(** [nextTasks.findIndex(t => t.id === tid)] followed by the in-place update
    of that task: the first task with the id is rewritten; the flag says
    whether one was found. *)
Fixpoint updateFirstTask (tid : string) (f : AutoTask -> AutoTask)
         (ts : list AutoTask) : list AutoTask * bool :=
  match ts with
  | [] => ([], false)
  | t :: rest =>
      if String.eqb (id t) tid then (f t :: rest, true)
      else let '(rest', found) := updateFirstTask tid f rest in
           (t :: rest', found)
  end.

(** The stake of the martingale example: maxCycle 3, multiplier 2. *)
Definition martingale3 : StrategyConfig :=
  mkStrategy MARTINGALE FIXED_ODD PARITY (Num.ofZ 2) 3 (Num.ofZ 10) 1
             (Some (map Num.ofZ [1; 2; 4; 8; 17]%Z)) (Some (Q2Qc (2 # 10))).

(** The state given to a task by [createTask]. *)
Definition initialState (cfg : StrategyConfig) (base : Qc) : StrategyState :=
  mkState 0
    (match sc_type cfg, customSequence cfg with
     | CUSTOM, Some s => (base * nthNum s 0)%Qc
     | _, _ => base
     end)
    0.

(* ------------------------------------------------------------------ *)
(** ** Streaks and bead rows *)

Definition axisValue (ty : BetType) (b : BlockData) : BetTarget :=
  match ty with
  | PARITY => ofBlockType (type b)
  | SIZE => ofSizeType (sizeType b)
  end.

(** The [for (const b of blocks)] loop of [calculateStreak]: counts the
    leading blocks that carry [v] and stops at the first other one. *)
Fixpoint countLeading (ty : BetType) (v : BetTarget) (blocks : list BlockData) : Z :=
  match blocks with
  | [] => 0%Z
  | b :: rest =>
      if BetTarget_eqb (axisValue ty b) v then (1 + countLeading ty v rest)%Z
      else 0%Z
  end.

Definition calculateStreak (blocks : list BlockData) (ty : BetType)
  : option BetTarget * Z :=
  match blocks with
  | [] => (None, 0%Z)
  | b0 :: _ => let firstVal := axisValue ty b0 in
               (Some firstVal, countLeading ty firstVal blocks)
  end.

(** [x as BetTarget]: every use is behind a test that the value is there. *)
Definition asBetTarget (v : option BetTarget) : BetTarget :=
  match v with Some t => t | None => T_ODD end.

(** [.sort((a, b) => b.height - a.height)]: a stable sort, highest first. *)
Fixpoint insertDesc (x : BlockData) (l : list BlockData) : list BlockData :=
  match l with
  | [] => [x]
  | y :: rest => if (height x <? height y)%Z then y :: insertDesc x rest
                 else x :: l
  end.

Definition sortDesc (l : list BlockData) : list BlockData :=
  fold_right insertDesc [] l.

(** [rule.beadRows || 6]. *)
Definition rowsOf (rule : IntervalRule) : Z :=
  if (beadRows rule =? 0)%Z then 6%Z else beadRows rule.

(** [getBeadRowBlocks(blocks, rule, rowIdx)].  With [rule.value = 0] the
    source divides by zero, the row index is [NaN] and no block passes; the
    model says so explicitly. *)
Definition getBeadRowBlocks (blocks : list BlockData) (rule : IntervalRule)
           (rowIdx : Z) : list BlockData :=
  let epoch := startBlock rule in
  let interval := value rule in
  let rows := rowsOf rule in
  sortDesc
    (filter
       (fun b =>
          let h := height b in
          if (1 <? value rule)%Z
             && (((0 <? startBlock rule)%Z && (h <? startBlock rule)%Z)
                 || ((0 <? startBlock rule)%Z
                     && negb (Z.rem (h - startBlock rule) (value rule) =? 0)%Z)
                 || ((startBlock rule =? 0)%Z
                     && negb (Z.rem h (value rule) =? 0)%Z))
          then false
          else if (interval =? 0)%Z then false
          else
            let logicalIdx := ((h - epoch) / interval)%Z in
            (Z.rem logicalIdx rows =? rowIdx)%Z)
       blocks).

(* ------------------------------------------------------------------ *)
(** ** The heuristic predictor *)

Record Analysis := mkAnalysis {
  shouldPredict : bool;
  nextP : option BetTarget;
  confP : Z;
  nextS : option BetTarget;
  confS : Z
}.

Definition startsWith (seq pat : string) : bool := String.prefix pat seq.

Definition firstIs (seq : string) (c : ascii) : bool :=
  match String.get 0 seq with
  | Some d => Ascii.eqb d c
  | None => false
  end.

(** [getBayesianConf(bias)], on doubles: [bias - 0.5] is rounded before it
    is compared with the doubles of [0.18] and [0.12]. *)
Definition getBayesianConf (bias : F64.float) : Z :=
  let deviation := F64.abs (F64.sub bias (F64.ofQ 1 2)) in
  if F64.ltb (F64.ofQ 18 100) deviation then 94%Z
  else if F64.ltb (F64.ofQ 12 100) deviation then 88%Z
  else 50%Z.

(** [checkPeriodicity(seq)] and [checkDensity(seq)]: [Some (val, conf)] when
    [match] is true. *)
Definition checkPeriodicity (seq : string) : option (BetTarget * Z) :=
  if startsWith seq "OEOEOE" || startsWith seq "EOEOEO"
  then Some ((if firstIs seq "O" then T_EVEN else T_ODD), 93%Z)
  else if startsWith seq "OOEEOO" || startsWith seq "EEOOEE"
  then Some ((if firstIs seq "O" then T_EVEN else T_ODD), 91%Z)
  else if startsWith seq "BSBSBS" || startsWith seq "SBSBSB"
  then Some ((if firstIs seq "B" then T_SMALL else T_BIG), 93%Z)
  else if startsWith seq "BBSSBB" || startsWith seq "SSBBSS"
  then Some ((if firstIs seq "B" then T_SMALL else T_BIG), 91%Z)
  else None.

Definition checkDensity (seq : string) : option (BetTarget * Z) :=
  if startsWith seq "OOOO" then Some (T_ODD, 95%Z)
  else if startsWith seq "EEEE" then Some (T_EVEN, 95%Z)
  else if startsWith seq "BBBB" then Some (T_BIG, 95%Z)
  else if startsWith seq "SSSS" then Some (T_SMALL, 95%Z)
  else None.

(** One axis of the analysis: periodicity, then density, then bias. *)
Definition axisSignal (seq : string) (bias : F64.float)
           (over under : BetTarget)
  : option BetTarget * Z :=
  match checkPeriodicity seq with
  | Some (v, c) => (Some v, c)
  | None =>
      match checkDensity seq with
      | Some (v, c) => (Some v, c)
      | None =>
          let bayes := getBayesianConf bias in
          if (90 <? bayes)%Z
          then (Some (if F64.ltb (F64.ofQ 1 2) bias then over else under),
                bayes)
          else (None, 50%Z)
      end
  end.

(** The mutual exclusion of the two axes. *)
Definition singleBest (p s : option BetTarget * Z)
  : (option BetTarget * Z) * (option BetTarget * Z) :=
  let '(nP, cP) := p in
  let '(nS, cS) := s in
  if (cS <? cP)%Z then ((nP, cP), (None, 0%Z))
  else if (cP <? cS)%Z then ((None, 0%Z), (nS, cS))
  else if (90 <=? cP)%Z then ((nP, cP), (None, 0%Z))
  else ((None, 0%Z), (None, 0%Z)).

(** [Math.round(Math.random() * 20 + 10)] for the draw [r]. *)
Definition entropyOf (r : Qc) : Z :=
  Num.round (r * Num.ofZ 20 + Num.ofZ 10)%Qc.

Definition countIf {A} (f : A -> bool) (l : list A) : Z :=
  lengthZ (filter f l).

(** [runAIAnalysis(blocks, rule)].  [rnd] is the source of [Math.random] and
    [k] the number of draws made so far; the second component is the number
    of draws made after the call. *)
Definition runAIAnalysis (rnd : nat -> Qc) (k : nat)
           (blocks : list BlockData) (rule : IntervalRule) : Analysis * nat :=
  let ruleBlocks :=
    firstn 80 (filter (fun b => checkRuleAlignment (height b) rule) blocks) in
  if (lengthZ ruleBlocks <? 24)%Z
  then (mkAnalysis false None 0 None 0, k)
  else
    let pSeq := string_of_list_ascii
                  (map (fun b => match type b with ODD => "O" | EVEN => "E" end)%char
                       (firstn 12 ruleBlocks)) in
    let sSeq := string_of_list_ascii
                  (map (fun b => match sizeType b with BIG => "B" | SMALL => "S" end)%char
                       (firstn 12 ruleBlocks)) in
    let oddCount := countIf (fun b => match type b with ODD => true | _ => false end)
                            ruleBlocks in
    let bigCount := countIf (fun b => match sizeType b with BIG => true | _ => false end)
                            ruleBlocks in
    let pBias := F64.div (F64.ofZ oddCount) (F64.ofZ (lengthZ ruleBlocks)) in
    let sBias := F64.div (F64.ofZ bigCount) (F64.ofZ (lengthZ ruleBlocks)) in
    let '((nP, cP), (nS, cS)) :=
      singleBest (axisSignal pSeq pBias T_EVEN T_ODD)
                 (axisSignal sSeq sBias T_SMALL T_BIG) in
    let entropy := entropyOf (rnd k) in
    let should := ((92 <=? cP)%Z || (92 <=? cS)%Z) && (entropy <? 40)%Z in
    (mkAnalysis should nP cP nS cS, S k).

(** A block window with a qualifying signal: thirty aligned blocks, all odd
    and big. *)
Definition oddRun : list BlockData :=
  map (fun i => mkBlock (130 - Z.of_nat i) ODD BIG) (seq 0 30).

Definition rule1 : IntervalRule := mkRule "1" 1 0 6.

(* ------------------------------------------------------------------ *)
(** ** The engine, first pass: settlement *)

(** The mutable locals of the settlement pass. *)
Record SettleLocals := mkSL {
  s_balance : Qc;            (* currentBalance *)
  s_peak : Qc;               (* tempPeak *)
  s_maxDD : Qc;              (* tempMaxDD *)
  s_tasks : list AutoTask;   (* nextTasks *)
  s_betsChanged : bool;
  s_tasksChanged : bool;
  s_metricsChanged : bool
}.

Definition findBlock (allBlocks : list BlockData) (h : Z) : option BlockData :=
  find (fun b => (height b =? h)%Z) allBlocks.

Definition isWinFor (bet : BetRecord) (targetBlock : BlockData) : bool :=
  match betType bet with
  | PARITY => BetTarget_eqb (ofBlockType (type targetBlock)) (prediction bet)
  | SIZE => BetTarget_eqb (ofSizeType (sizeType targetBlock)) (prediction bet)
  end.

(** [if (bet.taskId) { ... }]: the task that owns the wager, if it is still
    in the list, takes the result; the flag says whether a task did. *)
Definition settleOwner (bet : BetRecord) (isWin : bool) (pay : Qc)
           (ts : list AutoTask) : list AutoTask * bool :=
  if noTaskId bet then (ts, false)
  else updateFirstTask
         (match taskId bet with Some t => t | None => "" end)
         (fun t => settleTask t isWin pay (amount bet))
         ts.

(** The body of [bets.map(bet => ...)]. *)
Definition settleOne (allBlocks : list BlockData) (L : SettleLocals)
           (bet : BetRecord) : SettleLocals * BetRecord :=
  if isPending (status bet) then
    match findBlock allBlocks (targetHeight bet) with
    | Some targetBlock =>
        let isWin := isWinFor bet targetBlock in
        let pay := if isWin then (amount bet * odds bet)%Qc else 0%Qc in
        let cb := (s_balance L + pay)%Qc in
        let peak := if (s_peak L <? cb)%Qc then cb else s_peak L in
        let currentDD := (peak - cb)%Qc in
        let dd := (s_maxDD L <? currentDD)%Qc in
        let owner := settleOwner bet isWin pay (s_tasks L) in
        (mkSL cb peak (if dd then currentDD else s_maxDD L) (fst owner)
              true (s_tasksChanged L || snd owner) (s_metricsChanged L || dd),
         settleRecord bet (if isWin then WIN else LOSS) pay cb)
    | None => (L, bet)
    end
  else (L, bet).

Fixpoint settleAll (allBlocks : list BlockData) (L : SettleLocals)
         (l : list BetRecord) : SettleLocals * list BetRecord :=
  match l with
  | [] => (L, [])
  | bet :: rest =>
      let '(L1, bet') := settleOne allBlocks L bet in
      let '(L2, rest') := settleAll allBlocks L1 rest in
      (L2, bet' :: rest')
  end.

(* ------------------------------------------------------------------ *)
(** ** The engine, second pass: placement *)

(** [task.config.kellyFraction || 0.2]. *)
Definition riskFraction (kf : option F64.float) : F64.float :=
  match kf with
  | Some x => F64.orElse x (F64.ofQ 2 10)
  | None => F64.ofQ 2 10
  end.

(** The Kelly stake, as written at the three placement sites, in the
    arithmetic of the source.  With odds of exactly one [b_odds] is zero and
    [f] is an infinity or [NaN]. *)
Definition kellyStake (odds baseBet : F64.float) (kf : option F64.float)
           (currentBalance confidence : F64.float) : F64.float :=
  let b_odds := F64.sub odds (F64.ofZ 1) in
  let p := F64.div confidence (F64.ofZ 100) in
  let q := F64.sub (F64.ofZ 1) p in
  let f := F64.div (F64.sub (F64.mul b_odds p) q) b_odds in
  let amount :=
    if F64.ltb F64.zero f then
      let fraction := riskFraction kf in
      F64.floor (F64.mul (F64.mul currentBalance f) fraction)
    else baseBet in
  let amount := F64.max baseBet amount in
  F64.min amount currentBalance.

(** The Kelly fraction [f] alone, and the amount of the [f > 0] branch
    before the clamp. *)
Definition kellyF (odds confidence : F64.float) : F64.float :=
  let b_odds := F64.sub odds (F64.ofZ 1) in
  let p := F64.div confidence (F64.ofZ 100) in
  let q := F64.sub (F64.ofZ 1) p in
  F64.div (F64.sub (F64.mul b_odds p) q) b_odds.

Definition kellyRaw (odds : F64.float) (kf : option F64.float)
           (currentBalance confidence : F64.float) : F64.float :=
  F64.floor (F64.mul (F64.mul currentBalance (kellyF odds confidence))
                     (riskFraction kf)).

(** The Kelly stake on the values of the engine state: settings, bankroll
    and confidence are read as doubles, the stake is written back as the
    value of the double computed. *)
Definition kellyAmount (cfg : SimConfig) (kf : option Qc)
           (currentBalance : Qc) (confidence : Z) : Qc :=
  F64.toQc (kellyStake (F64.ofQc (cfg_odds cfg)) (F64.ofQc (cfg_baseBet cfg))
                       (option_map F64.ofQc kf)
                       (F64.ofQc currentBalance) (F64.ofZ confidence)).

(** [let amount = Math.floor(task.state.currentBetAmount)], replaced by the
    Kelly stake for an AI_KELLY task. *)
Definition stakeOf (cfg : SimConfig) (task : AutoTask) (currentBalance : Qc)
           (confidence : Z) : Qc :=
  match sc_type (tconfig task) with
  | AI_KELLY => kellyAmount cfg (kellyFraction (tconfig task)) currentBalance confidence
  | _ => Num.floor (currentBetAmount (state task))
  end.

(** The mutable locals of the placement pass. *)
Record PlaceLocals := mkPL {
  p_balance : Qc;              (* currentBalance *)
  p_bets : list BetRecord;     (* finalBets *)
  p_draws : nat;               (* draws of Math.random made so far *)
  p_betsChanged : bool;
  p_tasksChanged : bool
}.

(** [currentBalance -= amount; finalBets.unshift(newBet); betsChanged = true]. *)
Definition unshiftBet (cfg : SimConfig) (L : PlaceLocals) (task : AutoTask)
           (rid : string) (h : Z) (ty : BetType) (target : BetTarget)
           (amt : Qc) : PlaceLocals :=
  let newBet := mkBet (Some (id task)) rid h ty target amt (cfg_odds cfg)
                      PENDING 0%Qc 0%Qc in
  mkPL (p_balance L - amt)%Qc (newBet :: p_bets L) (p_draws L)
       true (p_tasksChanged L).

Record Candidate := mkCand {
  c_score : Z;                   (* confidence, or streak *)
  c_rule : option IntervalRule;
  c_type : BetType;
  c_target : BetTarget;
  c_height : Z
}.

Definition isSome {A} (o : option A) : bool :=
  match o with Some _ => true | None => false end.

Definition noCandidate : Candidate := mkCand 0 None PARITY T_ODD 0.

Definition hasPendingOf (l : list BetRecord) (task : AutoTask) : bool :=
  existsb (fun b => taskIdIs b (id task) && isPending (status b)) l.

Definition alreadyBet (l : list BetRecord) (h : Z) (rid : string)
           (task : AutoTask) : bool :=
  existsb (fun b => (targetHeight b =? h)%Z && String.eqb (ruleId b) rid
                    && taskIdIs b (id task)) l.

(** The body of [rules.forEach] in the full AI scan. *)
Definition scanRuleAI (rnd : nat -> Qc) (allBlocks : list BlockData) (h0 : Z)
           (acc : Candidate * nat) (rule : IntervalRule) : Candidate * nat :=
  let '(best, k) := acc in
  let '(analysis, k') := runAIAnalysis rnd k allBlocks rule in
  if negb (shouldPredict analysis) then (best, k')
  else
    let nextH := getNextTargetHeight h0 (value rule) (startBlock rule) in
    let best1 :=
      match nextP analysis with
      | Some t => if (c_score best <? confP analysis)%Z
                  then mkCand (confP analysis) (Some rule) PARITY t nextH
                  else best
      | None => best
      end in
    let best2 :=
      match nextS analysis with
      | Some t => if (c_score best1 <? confS analysis)%Z
                  then mkCand (confS analysis) (Some rule) SIZE t nextH
                  else best1
      | None => best1
      end in
    (best2, k').

(** The body of [rules.forEach] for GLOBAL_TREND_DRAGON. *)
Definition scanRuleTrend (allBlocks : list BlockData) (h0 : Z)
           (best : Candidate) (rule : IntervalRule) : Candidate :=
  let ruleBlocks := filter (fun b => checkRuleAlignment (height b) rule) allBlocks in
  match ruleBlocks with
  | [] => best
  | _ =>
      let nextH := getNextTargetHeight h0 (value rule) (startBlock rule) in
      let pStreak := calculateStreak ruleBlocks PARITY in
      let best1 := if (c_score best <? snd pStreak)%Z
                   then mkCand (snd pStreak) (Some rule) PARITY
                               (asBetTarget (fst pStreak)) nextH
                   else best in
      let sStreak := calculateStreak ruleBlocks SIZE in
      if (c_score best1 <? snd sStreak)%Z
      then mkCand (snd sStreak) (Some rule) SIZE (asBetTarget (fst sStreak)) nextH
      else best1
  end.

(** One turn of the [for (let r = 0; r < rows; r++)] loop of
    GLOBAL_BEAD_DRAGON. *)
Definition scanBeadRow (allBlocks : list BlockData) (h0 : Z)
           (rule : IntervalRule) (best : Candidate) (r : Z) : Candidate :=
  let rows := rowsOf rule in
  match getBeadRowBlocks allBlocks rule r with
  | [] => best
  | top :: _ as rowBlocks =>
      let nextH := (height top + value rule * rows)%Z in
      let pStreak := calculateStreak rowBlocks PARITY in
      let best1 := if (c_score best <? snd pStreak)%Z && (h0 <? nextH)%Z
                   then mkCand (snd pStreak) (Some rule) PARITY
                               (asBetTarget (fst pStreak)) nextH
                   else best in
      let sStreak := calculateStreak rowBlocks SIZE in
      if (c_score best1 <? snd sStreak)%Z && (h0 <? nextH)%Z
      then mkCand (snd sStreak) (Some rule) SIZE (asBetTarget (fst sStreak)) nextH
      else best1
  end.

Definition scanRuleBead (allBlocks : list BlockData) (h0 : Z)
           (best : Candidate) (rule : IntervalRule) : Candidate :=
  fold_left (scanBeadRow allBlocks h0 rule)
            (map Z.of_nat (seq 0 (Z.to_nat (rowsOf rule)))) best.

(** [if (!isDupe) { ... place ... }] of the two global branches. *)
Definition placeCandidate (cfg : SimConfig) (L : PlaceLocals) (task : AutoTask)
           (best : Candidate) (rule : IntervalRule) (confidence : Z) : PlaceLocals :=
  if alreadyBet (p_bets L) (c_height best) (rule_id rule) task then L
  else unshiftBet cfg L task (rule_id rule) (c_height best) (c_type best)
                  (c_target best) (stakeOf cfg task (p_balance L) confidence).

(** The bet a standard task decides on: type, target and the confidence
    handed to the Kelly stake; [None] when [shouldBet] stays false.  The
    second component counts the draws of [Math.random]. *)
Definition decideStandard (rnd : nat -> Qc) (k : nat)
           (allBlocks : list BlockData) (rule : IntervalRule) (task : AutoTask)
  : option (BetType * BetTarget * Z) * nat :=
  let ruleBlocks := filter (fun b => checkRuleAlignment (height b) rule) allBlocks in
  let cfg := tconfig task in
  match autoTarget cfg with
  | AI_PREDICTION =>
      let '(analysis, k') := runAIAnalysis rnd k allBlocks rule in
      if shouldPredict analysis then
        if (confS analysis <=? confP analysis)%Z && (92 <=? confP analysis)%Z
           && isSome (nextP analysis)
        then (Some (PARITY, asBetTarget (nextP analysis), confP analysis), k')
        else if (confP analysis <? confS analysis)%Z && (92 <=? confS analysis)%Z
                && isSome (nextS analysis)
        then (Some (SIZE, asBetTarget (nextS analysis), confS analysis), k')
        else (None, k')
      else (None, k')
  | FIXED_ODD => (Some (PARITY, T_ODD, 60%Z), k)
  | FIXED_EVEN => (Some (PARITY, T_EVEN, 60%Z), k)
  | FIXED_BIG => (Some (SIZE, T_BIG, 60%Z), k)
  | FIXED_SMALL => (Some (SIZE, T_SMALL, 60%Z), k)
  | FOLLOW_LAST =>
      match ruleBlocks with
      | [] => (None, k)
      | _ =>
          let streak := calculateStreak ruleBlocks (targetType cfg) in
          if (minStreak cfg <=? snd streak)%Z
          then (Some (targetType cfg, asBetTarget (fst streak), 60%Z), k)
          else (None, k)
      end
  | REVERSE_LAST =>
      match ruleBlocks with
      | [] => (None, k)
      | _ =>
          let streak := calculateStreak ruleBlocks (targetType cfg) in
          if (minStreak cfg <=? snd streak)%Z
          then
            let target :=
              match targetType cfg with
              | PARITY => match fst streak with Some T_ODD => T_EVEN | _ => T_ODD end
              | SIZE => match fst streak with Some T_BIG => T_SMALL | _ => T_BIG end
              end in
            (Some (targetType cfg, target, 60%Z), k)
          else (None, k)
      end
  | _ => (None, k)
  end.

Definition withDraws (L : PlaceLocals) (k : nat) : PlaceLocals :=
  mkPL (p_balance L) (p_bets L) k (p_betsChanged L) (p_tasksChanged L).

(** The body of [nextTasks.forEach(task => ...)]. *)
Definition processTask (rnd : nat -> Qc) (allBlocks : list BlockData)
           (rules : list IntervalRule) (cfg : SimConfig) (h0 : Z)
           (L : PlaceLocals) (task : AutoTask) : PlaceLocals * AutoTask :=
  if negb (isActive task) then (L, task)
  else if (p_balance L <? baseBet task)%Qc then
    (mkPL (p_balance L) (p_bets L) (p_draws L) (p_betsChanged L) true,
     setActive task false)
  else
    match autoTarget (tconfig task) with
    | GLOBAL_AI_FULL_SCAN =>
        if hasPendingOf (p_bets L) task then (L, task)
        else
          let '(best, k') :=
            fold_left (scanRuleAI rnd allBlocks h0) rules (noCandidate, p_draws L) in
          let L1 := withDraws L k' in
          match c_rule best with
          | Some rule =>
              if (94 <=? c_score best)%Z
              then (placeCandidate cfg L1 task best rule (c_score best), task)
              else (L1, task)
          | None => (L1, task)
          end
    | GLOBAL_TREND_DRAGON | GLOBAL_BEAD_DRAGON =>
        if hasPendingOf (p_bets L) task then (L, task)
        else
          let best :=
            fold_left
              (fun best rule =>
                 match autoTarget (tconfig task) with
                 | GLOBAL_TREND_DRAGON => scanRuleTrend allBlocks h0 best rule
                 | GLOBAL_BEAD_DRAGON => scanRuleBead allBlocks h0 best rule
                 | _ => best
                 end)
              rules noCandidate in
          match c_rule best with
          | Some rule =>
              if (minStreak (tconfig task) <=? c_score best)%Z
              then (placeCandidate cfg L task best rule 60, task)
              else (L, task)
          | None => (L, task)
          end
    | _ =>
        match find (fun r => String.eqb (rule_id r) (task_ruleId task)) rules with
        | None => (L, task)
        | Some rule =>
            let nextHeight :=
              getNextTargetHeight h0 (value rule) (startBlock rule) in
            if alreadyBet (p_bets L) nextHeight (rule_id rule) task then (L, task)
            else
              let '(decision, k') :=
                decideStandard rnd (p_draws L) allBlocks rule task in
              let L1 := withDraws L k' in
              match decision with
              | Some (ty, target, currentConfidence) =>
                  (unshiftBet cfg L1 task (rule_id rule) nextHeight ty target
                              (stakeOf cfg task (p_balance L1) currentConfidence),
                   task)
              | None => (L1, task)
              end
        end
    end.

Fixpoint placeAll (rnd : nat -> Qc) (allBlocks : list BlockData)
         (rules : list IntervalRule) (cfg : SimConfig) (h0 : Z)
         (L : PlaceLocals) (ts : list AutoTask) : PlaceLocals * list AutoTask :=
  match ts with
  | [] => (L, [])
  | t :: rest =>
      let '(L1, t') := processTask rnd allBlocks rules cfg h0 L t in
      let '(L2, rest') := placeAll rnd allBlocks rules cfg h0 L1 rest in
      (L2, t' :: rest')
  end.

(** [globalStop]. *)
Definition globalStop (cfg : SimConfig) (currentBalance : Qc) : bool :=
  let profit := (currentBalance - initialBalance cfg)%Qc in
  ((0 <? takeProfit cfg)%Qc && (takeProfit cfg <=? profit)%Qc)
  || ((0 <? stopLoss cfg)%Qc && (profit <=? - stopLoss cfg)%Qc).

(** The settlement pass of a run of the effect, from the committed state. *)
Definition settlePass (allBlocks : list BlockData) (st : EngineState)
  : SettleLocals * list BetRecord :=
  settleAll allBlocks
            (mkSL (balance st) (peakBalance (globalMetrics st))
                  (gm_maxDrawdown (globalMetrics st)) (tasks st)
                  false false false)
            (bets st).

(** The placement pass, or the stop of every task when the global stop is
    hit. *)
Definition placePass (rnd : nat -> Qc) (allBlocks : list BlockData)
           (rules : list IntervalRule) (cfg : SimConfig) (h0 : Z)
           (SL : SettleLocals) (updatedBets : list BetRecord)
  : PlaceLocals * list AutoTask :=
  let L := mkPL (s_balance SL) updatedBets 0 (s_betsChanged SL) (s_tasksChanged SL) in
  if negb (globalStop cfg (s_balance SL)) then
    placeAll rnd allBlocks rules cfg h0 L (s_tasks SL)
  else if existsb isActive (s_tasks SL) then
    (mkPL (p_balance L) (p_bets L) (p_draws L) (p_betsChanged L) true,
     map (fun t => setActive t false) (s_tasks SL))
  else (L, s_tasks SL).

(** [3. COMMIT UPDATES].  The task objects are updated in place in the
    source, and every such update raises [tasksChanged], so the committed
    list is the updated one. *)
Definition commit (st : EngineState) (SL : SettleLocals) (P : PlaceLocals)
           (nextTasks : list AutoTask) : EngineState :=
  mkEngine
    (if p_betsChanged P then p_balance P else balance st)
    (if p_betsChanged P then p_bets P else bets st)
    (config st)
    (if p_tasksChanged P then nextTasks else tasks st)
    (if s_metricsChanged SL
        || negb (if Qc_eq_dec (s_peak SL) (peakBalance (globalMetrics st))
                 then true else false)
     then mkMetrics (s_peak SL) (s_maxDD SL)
     else globalMetrics st).

(** One run of the engine effect. *)
Definition engine (rnd : nat -> Qc) (allBlocks : list BlockData)
           (rules : list IntervalRule) (st : EngineState) : EngineState :=
  match allBlocks with
  | [] => st
  | top :: _ =>
      let '(SL, updatedBets) := settlePass allBlocks st in
      let '(P, nextTasks) :=
        placePass rnd allBlocks rules (config st) (height top) SL updatedBets in
      commit st SL P nextTasks
  end.

(** The settlement step alone: a run of the effect that stops after its
    first pass and commits. *)
Definition settle (allBlocks : list BlockData) (st : EngineState) : EngineState :=
  match allBlocks with
  | [] => st
  | _ :: _ =>
      let '(SL, updatedBets) := settlePass allBlocks st in
      commit st SL
             (mkPL (s_balance SL) updatedBets 0 (s_betsChanged SL) (s_tasksChanged SL))
             (s_tasks SL)
  end.

(* ------------------------------------------------------------------ *)
(** ** The manual gateway and the operator's commands *)

Inductive BetSource := FromManual | FromAuto.

(** [placeBet(targetHeight, type, target, amount, source, rule, taskId)]:
    the result is the returned boolean and the next state. *)
Definition placeBet (st : EngineState) (h : Z) (ty : BetType)
           (target : BetTarget) (amt : Qc) (source : BetSource)
           (rule : IntervalRule) (tid : option string) : bool * EngineState :=
  let isDuplicate :=
    existsb (fun b => (targetHeight b =? h)%Z
                      && String.eqb (ruleId b) (rule_id rule)
                      && match source with
                         | FromManual => noTaskId b
                         | FromAuto => taskIdEq b tid
                         end)
            (bets st) in
  if isDuplicate then (false, st)
  else
    let newBet := mkBet tid (rule_id rule) h ty target amt
                        (cfg_odds (config st)) PENDING 0%Qc 0%Qc in
    (true,
     mkEngine (balance st - amt)%Qc (newBet :: bets st) (config st)
              (tasks st) (globalMetrics st)).

(** The manual buttons call [placeBet(..., 'MANUAL', manualRule)]. *)
Definition placeManual (st : EngineState) (h : Z) (ty : BetType)
           (target : BetTarget) (amt : Qc) (rule : IntervalRule)
  : bool * EngineState :=
  placeBet st h ty target amt FromManual rule None.

Definition emptyStats : TaskStats := mkStats 0 0 0%Qc 0%Qc 0%Qc 0%Qc 0%Qc 0%Qc.

Definition createTask (st : EngineState) (newId draftRuleId : string)
           (draftConfig : StrategyConfig) : EngineState :=
  let newTask :=
    mkTask newId draftRuleId draftConfig (cfg_baseBet (config st))
           (initialState draftConfig (cfg_baseBet (config st))) false emptyStats in
  mkEngine (balance st) (bets st) (config st) (tasks st ++ [newTask])
           (globalMetrics st).

Definition setTasks (st : EngineState) (ts : list AutoTask) : EngineState :=
  mkEngine (balance st) (bets st) (config st) ts (globalMetrics st).

Definition toggleTask (st : EngineState) (tid : string) : EngineState :=
  setTasks st (map (fun t => if String.eqb (id t) tid
                             then setActive t (negb (isActive t)) else t)
                   (tasks st)).

Definition startAllTasks (st : EngineState) : EngineState :=
  setTasks st (map (fun t => setActive t true) (tasks st)).

Definition stopAllTasks (st : EngineState) : EngineState :=
  setTasks st (map (fun t => setActive t false) (tasks st)).

Definition deleteTask (st : EngineState) (tid : string) : EngineState :=
  setTasks st (filter (fun t => negb (String.eqb (id t) tid)) (tasks st)).

Definition defaults : SimConfig :=
  mkConfig (Num.ofZ 10000) (Q2Qc (198 # 100)) 0%Qc 0%Qc (Num.ofZ 100).

Definition resetAccount : EngineState :=
  mkEngine (initialBalance defaults) [] defaults []
           (mkMetrics (initialBalance defaults) 0%Qc).

(** The risk settings of the panel: odds, take-profit, stop-loss and base
    stake.  (The panel can also overwrite [initialBalance], the reference
    point of the profit; that edit is kept apart from the runs below.) *)
Definition setRisk (st : EngineState) (o tp sl base : Qc) : EngineState :=
  mkEngine (balance st) (bets st)
           (mkConfig (initialBalance (config st)) o sl tp base)
           (tasks st) (globalMetrics st).

(* ------------------------------------------------------------------ *)
(** ** The earlier generations of the component, where they differ *)

(** The multi-task engine before the Kelly and AI modes were added: the
    body of its [nextTasks.forEach(task => ...)]. *)
Module V3.

Definition decide (allBlocks : list BlockData) (rule : IntervalRule)
           (task : AutoTask) : option (BetType * BetTarget) :=
  let ruleBlocks := filter (fun b => checkRuleAlignment (height b) rule) allBlocks in
  let cfg := tconfig task in
  match autoTarget cfg with
  | FIXED_ODD => Some (PARITY, T_ODD)
  | FIXED_EVEN => Some (PARITY, T_EVEN)
  | FIXED_BIG => Some (SIZE, T_BIG)
  | FIXED_SMALL => Some (SIZE, T_SMALL)
  | FOLLOW_LAST =>
      match ruleBlocks with
      | [] => None
      | _ =>
          let streak := calculateStreak ruleBlocks (targetType cfg) in
          if (minStreak cfg <=? snd streak)%Z
          then Some (targetType cfg, asBetTarget (fst streak))
          else None
      end
  | REVERSE_LAST =>
      match ruleBlocks with
      | [] => None
      | _ =>
          let streak := calculateStreak ruleBlocks (targetType cfg) in
          if (minStreak cfg <=? snd streak)%Z
          then
            Some (targetType cfg,
                  match targetType cfg with
                  | PARITY => match fst streak with Some T_ODD => T_EVEN | _ => T_ODD end
                  | SIZE => match fst streak with Some T_BIG => T_SMALL | _ => T_BIG end
                  end)
          else None
      end
  | _ => None
  end.

Definition processTask (allBlocks : list BlockData)
           (rules : list IntervalRule) (cfg : SimConfig) (h0 : Z)
           (L : PlaceLocals) (task : AutoTask) : PlaceLocals * AutoTask :=
  if negb (isActive task) then (L, task)
  else if (p_balance L <? currentBetAmount (state task))%Qc then
    (mkPL (p_balance L) (p_bets L) (p_draws L) (p_betsChanged L) true,
     setActive task false)
  else
    match find (fun r => String.eqb (rule_id r) (task_ruleId task)) rules with
    | None => (L, task)
    | Some rule =>
        let nextHeight := getNextTargetHeight h0 (value rule) (startBlock rule) in
        if alreadyBet (p_bets L) nextHeight (rule_id rule) task then (L, task)
        else
          match decide allBlocks rule task with
          | Some (ty, target) =>
              (unshiftBet cfg L task (rule_id rule) nextHeight ty target
                          (Num.floor (currentBetAmount (state task))),
               task)
          | None => (L, task)
          end
    end.

End V3.

(** The single-strategy component: its [placeBet], which serves the manual
    buttons ([isAuto = false], [currentBal = balance]) and the auto engine. *)
Module V2.

Record State := mkV2 {
  v2_balance : Qc;
  v2_bets : list BetRecord;
  v2_isAutoRunning : bool
}.

(** [alert] only shows a message and is not modelled; the wagers of this
    generation carry no task id. *)
Definition placeBet (activeRule : IntervalRule) (oddsV : Qc) (st : State)
           (h : Z) (ty : BetType) (target : BetTarget) (amt : Qc)
           (isAuto : bool) (currentBal : Qc) : bool * State :=
  if (currentBal <? amt)%Qc then
    (false,
     if isAuto then mkV2 (v2_balance st) (v2_bets st) false else st)
  else if existsb (fun b => (targetHeight b =? h)%Z
                            && String.eqb (ruleId b) (rule_id activeRule))
                  (v2_bets st)
  then (false, st)
  else
    let newBet := mkBet None (rule_id activeRule) h ty target amt oddsV
                        PENDING 0%Qc currentBal in
    (true, mkV2 (v2_balance st - amt)%Qc (newBet :: v2_bets st)
                (v2_isAutoRunning st)).

Definition placeManual (activeRule : IntervalRule) (oddsV : Qc) (st : State)
           (h : Z) (ty : BetType) (target : BetTarget) (amt : Qc)
  : bool * State :=
  placeBet activeRule oddsV st h ty target amt false (v2_balance st).

End V2.

(* ------------------------------------------------------------------ *)
(** ** Runs of the component *)

(** What happens to the committed state: a run of the engine effect on the
    blocks at hand, or a command of the operator. *)
Inductive Op :=
| DoEngine (rnd : nat -> Qc) (allBlocks : list BlockData) (rules : list IntervalRule)
| DoPlaceManual (h : Z) (ty : BetType) (target : BetTarget) (amt : Qc)
                (rule : IntervalRule)
| DoCreateTask (newId draftRuleId : string) (draftConfig : StrategyConfig)
| DoToggleTask (tid : string)
| DoStartAll
| DoStopAll
| DoDeleteTask (tid : string)
| DoSetRisk (o tp sl base : Qc).

Definition step (st : EngineState) (op : Op) : EngineState :=
  match op with
  | DoEngine rnd allBlocks rules => engine rnd allBlocks rules st
  | DoPlaceManual h ty target amt rule => snd (placeManual st h ty target amt rule)
  | DoCreateTask newId rid cfg => createTask st newId rid cfg
  | DoToggleTask tid => toggleTask st tid
  | DoStartAll => startAllTasks st
  | DoStopAll => stopAllTasks st
  | DoDeleteTask tid => deleteTask st tid
  | DoSetRisk o tp sl base => setRisk st o tp sl base
  end.

Definition run (st : EngineState) (ops : list Op) : EngineState :=
  fold_left step ops st.

(** An account opened with the balance [initialBalance cfg] and nothing
    else; [resetAccount] is [fresh defaults]. *)
Definition fresh (cfg : SimConfig) : EngineState :=
  mkEngine (initialBalance cfg) [] cfg [] (mkMetrics (initialBalance cfg) 0%Qc).

(** The combination that may carry one wager at most. *)
Definition wagerKey (b : BetRecord) : string * Z * option string :=
  (ruleId b, targetHeight b, taskId b).

(* ------------------------------------------------------------------ *)
(** ** The replay of the ledger *)

(** The ledger changes in two ways: a wager is placed, a pending wager is
    settled.  The journal of a run lists these changes in the order in which
    they are made: within one run of the engine the settlements come first,
    in ledger order, then the placements. *)
Inductive LedgerEvent :=
| Placed (b : BetRecord)
| Settled (b : BetRecord).

(** The wagers that left PENDING between two versions of the same ledger. *)
Fixpoint settledBetween (old new : list BetRecord) : list LedgerEvent :=
  match old, new with
  | o :: old', n :: new' =>
      (if isPending (status o) && negb (isPending (status n))
       then [Settled n] else [])
      ++ settledBetween old' new'
  | _, _ => []
  end.

(** New wagers are put at the head of the ledger, the latest first. *)
Definition journalOfStep (old new : list BetRecord) : list LedgerEvent :=
  let k := (List.length new - List.length old)%nat in
  settledBetween old (skipn k new) ++ map Placed (rev (firstn k new)).

Fixpoint journal (st : EngineState) (ops : list Op) : list LedgerEvent :=
  match ops with
  | [] => []
  | op :: rest =>
      journalOfStep (bets st) (bets (step st op)) ++ journal (step st op) rest
  end.

(** The replay, in the words of the specification: the stake is debited at
    placement, the payout (stake times the odds at placement if won, nothing
    if lost) is credited at settlement. *)
Definition replayPayout (b : BetRecord) : Qc :=
  match status b with
  | WIN => (amount b * odds b)%Qc
  | _ => 0%Qc
  end.

Definition applyEvent (bal : Qc) (e : LedgerEvent) : Qc :=
  match e with
  | Placed b => (bal - amount b)%Qc
  | Settled b => (bal + replayPayout b)%Qc
  end.

Definition replay (initial : Qc) (events : list LedgerEvent) : Qc :=
  fold_left applyEvent events initial.

(* ------------------------------------------------------------------ *)
(** ** Concrete inputs of the examples *)

(** A martingale task with base 100 after three losses in a row (stakes 100,
    200, 400) out of a bankroll of 1000: 300 are left, the next stake is
    800. *)
Definition martingale10 : StrategyConfig :=
  mkStrategy MARTINGALE FIXED_ODD PARITY (Num.ofZ 2) 10 (Num.ofZ 10) 1
             None None.

Definition chaser : AutoTask :=
  mkTask "t1" "1" martingale10 (Num.ofZ 100) (mkState 3 (Num.ofZ 800) 0)
         true emptyStats.

Definition lowBankroll : EngineState :=
  mkEngine (Num.ofZ 300) []
           (mkConfig (Num.ofZ 1000) (Q2Qc (198 # 100)) 0%Qc 0%Qc (Num.ofZ 100))
           [chaser] (mkMetrics (Num.ofZ 1000) (Num.ofZ 700)).

Definition block10 : BlockData := mkBlock 10 ODD BIG.

(** An account with 50 left and an empty ledger. *)
Definition nearlyEmpty : EngineState :=
  mkEngine (Num.ofZ 50) [] defaults [] (mkMetrics (Num.ofZ 10000) 0%Qc).

Definition nearlyEmptyV2 : V2.State := V2.mkV2 (Num.ofZ 50) [] false.


(** Even-money odds: 2. *)
Definition evenMoney : SimConfig :=
  mkConfig (Num.ofZ 10000) (Num.ofZ 2) 0%Qc 0%Qc (Num.ofZ 100).



(** A rule that starts at height 100 with step 20. *)
Definition rule20from100 : IntervalRule := mkRule "late" 20 100 6.

(** The task of the martingale example. *)
Definition taskWith (cfg : StrategyConfig) (base : Qc) (s : StrategyState) : AutoTask :=
  mkTask "m" "1" cfg base s true emptyStats.

(** The draws of [Math.random] lie in [0, 1). *)
Definition unitDraws (rnd : nat -> Qc) : Prop :=
  forall n, (0 <= rnd n)%Qc /\ (rnd n < 1)%Qc.

(** The stop-loss scenario: stop-loss 500, starting bankroll 10000, losses
    have brought the balance to 9500; a flat task on odd is active. *)
Definition flatConfig : StrategyConfig :=
  mkStrategy FLAT FIXED_ODD PARITY (Num.ofZ 2) 10 (Num.ofZ 10) 1 None None.

Definition flatTask : AutoTask :=
  mkTask "f1" "1" flatConfig (Num.ofZ 100) (mkState 0 (Num.ofZ 100) 0)
         true emptyStats.

Definition stoppedOut : EngineState :=
  mkEngine (Num.ofZ 9500) []
           (mkConfig (Num.ofZ 10000) (Q2Qc (198 # 100)) (Num.ofZ 500) 0%Qc
                     (Num.ofZ 100))
           [flatTask] (mkMetrics (Num.ofZ 10000) (Num.ofZ 500)).

(** The flat scenario: the task is created and started on a fresh account,
    the engine runs on block 9 and then on block 10. *)
Definition block9 : BlockData := mkBlock 9 EVEN SMALL.
Definition block10even : BlockData := mkBlock 10 EVEN BIG.

Definition flatScenario (b : BlockData) : list Op :=
  [DoCreateTask "f1" "1" flatConfig;
   DoToggleTask "f1";
   DoEngine (fun _ => 0%Qc) [block9] [rule1];
   DoEngine (fun _ => 0%Qc) [b; block9] [rule1]].

Definition noBet : BetRecord :=
  mkBet None "" 0 PARITY T_ODD 0%Qc 0%Qc PENDING 0%Qc 0%Qc.

(* ------------------------------------------------------------------ *)
(** ** Notions used in the statements *)

(** The test of [placeBet] for a manual wager. *)
Definition manualDuplicate (l : list BetRecord) (h : Z) (rule : IntervalRule) : bool :=
  existsb (fun b => (targetHeight b =? h)%Z
                    && String.eqb (ruleId b) (rule_id rule)
                    && noTaskId b) l.

Definition keys (l : list BetRecord) : list (string * Z * option string) :=
  map wagerKey l.

(** Every settlement of a journal carries, as [balanceAfter], the balance
    that the replay has reached right after it. *)
Fixpoint stamped (bal : Qc) (events : list LedgerEvent) : Prop :=
  match events with
  | [] => True
  | e :: rest =>
      match e with
      | Settled b => applyEvent bal e = balanceAfter b
      | Placed _ => True
      end
      /\ stamped (applyEvent bal e) rest
  end.

(** The global stop, as the specification words it. *)
Definition stopTripped (cfg : SimConfig) (bal : Qc) : Prop :=
  let profit := (bal - initialBalance cfg)%Qc in
  ((0 < takeProfit cfg)%Qc /\ (takeProfit cfg <= profit)%Qc)
  \/ ((0 < stopLoss cfg)%Qc /\ (profit <= - stopLoss cfg)%Qc).

(** The invariant of the replay: the balance is the replay of the journal,
    every settled wager of the ledger has its settlement in the journal,
    and the journal is stamped. *)
Definition replayInvariant (initial : Qc) (st : EngineState)
           (events : list LedgerEvent) : Prop :=
  balance st = replay initial events
  /\ (forall b, In b (bets st) -> status b <> PENDING -> In (Settled b) events)
  /\ stamped initial events.

(** What the placement pass may do to its locals: put new pending wagers
    on top of the ledger, debit their stakes in the order of placement, and
    raise its flags. *)
Definition placedOnTop (L L' : PlaceLocals) (news : list BetRecord) : Prop :=
  p_bets L' = news ++ p_bets L
  /\ Forall (fun b => status b = PENDING) news
  /\ p_balance L' = replay (p_balance L) (map Placed (rev news))
  /\ (news = [] -> p_betsChanged L' = p_betsChanged L)
  /\ (news <> [] -> p_betsChanged L' = true)
  /\ (NoDup (keys (p_bets L)) -> NoDup (keys (p_bets L'))).

(** A run for the examples: a manual wager on odd at height 10, then the
    block of height 10, which is odd. *)
Definition demoOps : list Op :=
  [DoPlaceManual 10 PARITY T_ODD (Num.ofZ 100) rule1;
   DoEngine (fun _ => 0%Qc) [block10] [rule1]].

(** The feed delivers the blocks highest first. *)
Definition headIsHighest (allBlocks : list BlockData) : Prop :=
  match allBlocks with
  | [] => True
  | b0 :: _ => forall b, In b allBlocks -> (height b <= height b0)%Z
  end.

(** A candidate of a global scan either names no rule or aims above the
    head of the chain. *)
Definition aimsAbove (h0 : Z) (c : Candidate) : Prop :=
  c_rule c = None \/ (h0 < c_height c)%Z.

(** The net effect of a wager on the bankroll, and of a whole ledger, the
    oldest wager first: the stake is out from placement on, the payout is
    in once the wager is won. *)
Definition net (b : BetRecord) : Qc := (replayPayout b - amount b)%Qc.

Fixpoint ledgerTotal (l : list BetRecord) : Qc :=
  match l with
  | [] => 0%Qc
  | b :: rest => (ledgerTotal rest + net b)%Qc
  end.

(* ------------------------------------------------------------------ *)
(** ** Further notions used in the statements *)

(** The table a sequence strategy reads its multiplier from; the other
    strategies read none. *)
Definition tableOf (cfg : StrategyConfig) : option (list Qc) :=
  match sc_type cfg with
  | FIBONACCI => Some FIB_SEQ
  | S1326 => Some SEQ_1326
  | CUSTOM => Some (match customSequence cfg with Some s => s | None => [1%Qc] end)
  | _ => None
  end.

(** A signal of one axis of the predictor: none at confidence 50, or a
    target at one of the fixed tiers. *)
Definition tiered (s : option BetTarget * Z) : Prop :=
  s = (None, 50%Z)
  \/ exists t c, s = (Some t, c) /\ (c = 91 \/ c = 93 \/ c = 94 \/ c = 95)%Z.


(* ------------------------------------------------------------------ *)
(** ** The block window of the application *)

(** The loop over [combined] that fills [uniqueMap]: a block enters the
    map when its height is not in it yet, and the map keeps the order of
    entry.  [acc] is the content of the map so far. *)
Fixpoint uniqueByHeight (combined acc : list BlockData) : list BlockData :=
  match combined with
  | [] => acc
  | b :: rest =>
      uniqueByHeight rest
        (if existsb (fun x => (height x =? height b)%Z) acc then acc
         else acc ++ [b])
  end.

(** The updater handed to [setAllBlocks], by the back-fill and by the
    poll: the new blocks go in front, one block is kept per height, the
    blocks are sorted highest first and the window is cut at 3000. *)
Definition mergeBlocks (newBlocks prev : list BlockData) : list BlockData :=
  firstn 3000 (sortDesc (uniqueByHeight (newBlocks ++ prev) [])).

(** The heights that [fillDataForInterval] asks for, from the height of
    the latest block: the latest height is brought down to the rule, then
    a hundred heights are taken a step apart, and those at or below zero
    or below the start block are dropped. *)
Definition targetHeights (latestHeight : Z) (rule : IntervalRule) : list Z :=
  let currentHeight :=
    if (1 <? value rule)%Z then
      if (0 <? startBlock rule)%Z then
        let diff := (latestHeight - startBlock rule)%Z in
        (startBlock rule + diff / value rule * value rule)%Z
      else (latestHeight / value rule * value rule)%Z
    else latestHeight in
  filter (fun h => (0 <? h)%Z
                   && ((startBlock rule =? 0)%Z || (startBlock rule <=? h)%Z))
         (map (fun i => (currentHeight - Z.of_nat i * value rule)%Z) (seq 0 100)).

(** Highest first, and strictly so. *)
Definition descending (l : list BlockData) : Prop :=
  StronglySorted (fun a b => (height b <= height a)%Z) l.

Definition strictlyDescending (l : list BlockData) : Prop :=
  StronglySorted (fun a b => (height b < height a)%Z) l.

(** The test of the filter of [getBeadRowBlocks]. *)
Definition inBeadRow (rule : IntervalRule) (rowIdx : Z) (b : BlockData) : Prop :=
  (value rule <> 0)%Z
  /\ Z.rem ((height b - startBlock rule) / value rule) (rowsOf rule) = rowIdx.


(* ================================================================== *)
(** * Properties *)

(* ------------------------------------------------------------------ *)
(** ** Numbers *)

Section NumFacts.

Local Open Scope Qc_scope.

Lemma ltb_lt (x y : Qc) : (x <? y) = true <-> x < y.
Proof.
  unfold Num.ltb. rewrite Qclt_alt.
  destruct (x ?= y); split; congruence.
Qed.

Lemma ltb_ge (x y : Qc) : (x <? y) = false <-> y <= x.
Proof.
  split; intros H.
  - apply Qcnot_lt_le. intros Hlt. apply ltb_lt in Hlt. congruence.
  - destruct (x <? y) eqn:E; [|reflexivity].
    apply ltb_lt in E. exfalso. exact (Qcle_not_lt _ _ H E).
Qed.

Lemma leb_le (x y : Qc) : (x <=? y) = true <-> x <= y.
Proof.
  unfold Num.leb. rewrite negb_true_iff. apply ltb_ge.
Qed.

Lemma max_l (x y : Qc) : x <= Num.max x y.
Proof.
  unfold Num.max. destruct (x <? y) eqn:E.
  - apply Qclt_le_weak. now apply ltb_lt.
  - apply Qcle_refl.
Qed.

Lemma max_r (x y : Qc) : y <= Num.max x y.
Proof.
  unfold Num.max. destruct (x <? y) eqn:E.
  - apply Qcle_refl.
  - now apply ltb_ge.
Qed.

Lemma max_id (x : Qc) : Num.max x x = x.
Proof. unfold Num.max. destruct (x <? x); reflexivity. Qed.

Lemma min_r (x y : Qc) : Num.min x y <= y.
Proof.
  unfold Num.min. destruct (y <? x) eqn:E.
  - apply Qcle_refl.
  - now apply ltb_ge.
Qed.

Lemma min_glb (x y z : Qc) : z <= x -> z <= y -> z <= Num.min x y.
Proof. unfold Num.min. destruct (y <? x); auto. Qed.

Lemma min_glb_lt (x y z : Qc) : z < x -> z < y -> z < Num.min x y.
Proof. unfold Num.min. destruct (y <? x); auto. Qed.

Lemma min_l_eq (x y : Qc) : x <= y -> Num.min x y = x.
Proof.
  intros H. unfold Num.min. destruct (y <? x) eqn:E; [|reflexivity].
  apply ltb_lt in E. exfalso. exact (Qcle_not_lt _ _ H E).
Qed.

Lemma min_r_eq (x y : Qc) : y < x -> Num.min x y = y.
Proof.
  intros H. unfold Num.min. apply ltb_lt in H. now rewrite H.
Qed.

Lemma this_ofZ (z : Z) : (Num.ofZ z : Q) == inject_Z z.
Proof. exact (Qred_correct (inject_Z z)). Qed.

Lemma floor_ofZ (z : Z) : Num.floor (Num.ofZ z) = Num.ofZ z.
Proof.
  unfold Num.floor. f_equal.
  rewrite (Qfloor_comp _ _ (this_ofZ z)). apply Qfloor_Z.
Qed.

(** An integer below a number is below its floor. *)
Lemma Qfloor_lt_Z (x : Qc) (z : Z) : x < Num.ofZ z -> (Qfloor x < z)%Z.
Proof.
  intros H. unfold Qclt in H. rewrite this_ofZ in H.
  rewrite Zlt_Qlt. eapply Qle_lt_trans; [apply Qfloor_le | exact H].
Qed.

End NumFacts.

(** Order facts between numbers are sent to [Q], where [lra] decides the
    linear ones. *)
Ltac qc_unfold :=
  unfold Qclt, Qcle, Qcminus, Qcplus, Qcopp, Qcmult, Num.ofZ in *;
  cbn [this Q2Qc] in *;
  rewrite ?Qred_correct in *;
  unfold inject_Z in *.

Ltac qc_lra := qc_unfold; lra.

(** Closed equations between numbers are settled by evaluation. *)
Ltac qc_compute :=
  repeat match goal with
         | |- _ /\ _ => split
         end;
  try (apply Qc_is_canon; vm_compute; reflexivity);
  try (vm_compute; reflexivity).

(* ------------------------------------------------------------------ *)
(** ** Rule alignment: properties *)

Section Alignment.

Lemma checkRuleAlignment_step20 (h : Z) :
  checkRuleAlignment h rule20 = true <-> (exists k, h = 20 * k)%Z.
Proof.
  unfold checkRuleAlignment, rule20; cbn [value startBlock].
  change (20 <=? 1)%Z with false. change (0 <? 0)%Z with false. cbv iota.
  rewrite Z.eqb_eq. split.
  - intros H. exists (Z.quot h 20).
    pose proof (Z.quot_rem' h 20). lia.
  - intros [k ->]. rewrite Z.mul_comm. apply Z.rem_mul. lia.
Qed.

Lemma nextAligned_25_rule20 : nextAligned 25 rule20 = 40%Z.
Proof. reflexivity. Qed.

(** With a step above one the candidate [offset + (diff / step + 1) * step]
    is always past the current height. *)
Lemma next_candidate_gt (h step offset : Z) :
  (1 < step)%Z ->
  (h < offset + ((h - offset) / step + 1) * step)%Z.
Proof.
  intros Hs.
  pose proof (Z.div_mod (h - offset) step ltac:(lia)) as Hd.
  pose proof (Z.mod_pos_bound (h - offset) step ltac:(lia)) as Hm.
  nia.
Qed.

Lemma getNextTargetHeight_gt (h step offset : Z) :
  (h < getNextTargetHeight h step offset)%Z.
Proof.
  unfold getNextTargetHeight.
  destruct (Z.leb_spec step 1); [lia|].
  destruct (Z.ltb_spec h (offset + ((h - offset) / step + 1) * step)); [lia|].
  pose proof (next_candidate_gt h offset H). lia.
Qed.

Lemma getNextTargetHeight_eq (h step offset : Z) :
  (1 < step)%Z ->
  getNextTargetHeight h step offset
  = (offset + ((h - offset) / step + 1) * step)%Z.
Proof.
  intros Hs. unfold getNextTargetHeight.
  destruct (Z.leb_spec step 1); [lia|].
  destruct (Z.ltb_spec h (offset + ((h - offset) / step + 1) * step)); [reflexivity|].
  pose proof (next_candidate_gt h offset Hs). lia.
Qed.

(** Above [startBlock - step] the next target is aligned. *)
Lemma nextAligned_aligned (h : Z) (rule : IntervalRule) :
  (1 <= value rule)%Z -> (0 <= startBlock rule)%Z ->
  (startBlock rule - value rule <= h)%Z ->
  checkRuleAlignment (nextAligned h rule) rule = true.
Proof.
  intros Hv Ho Hh. unfold nextAligned, checkRuleAlignment.
  destruct (Z.leb_spec (value rule) 1) as [|Hs]; [reflexivity|].
  rewrite getNextTargetHeight_eq by lia.
  set (s := value rule) in *. set (o := startBlock rule) in *.
  destruct (Z.ltb_spec 0 o) as [Hpos|Hz].
  - apply andb_true_intro; split.
    + apply Z.leb_le.
      assert (-1 <= (h - o) / s)%Z.
      { apply Z.div_le_lower_bound; lia. }
      nia.
    + apply Z.eqb_eq.
      replace (o + ((h - o) / s + 1) * s - o)%Z with (((h - o) / s + 1) * s)%Z by lia.
      apply Z.rem_mul. lia.
  - assert (o = 0%Z) by lia. subst o. rewrite H.
    apply Z.eqb_eq. rewrite Z.add_0_l. apply Z.rem_mul. lia.
Qed.

End Alignment.
(** C9: a rule whose start block lies more than one step above the current
    height gets a next target that its own alignment test refuses: for step
    20 and start block 100, the target after height 25 is 40, which is below
    the start block and not aligned. *)
Theorem nextAligned_below_startBlock_unaligned :
  nextAligned 25 rule20from100 = 40%Z
  /\ checkRuleAlignment (nextAligned 25 rule20from100) rule20from100 = false.
Proof. split; reflexivity. Qed.

(** What holds of the next target at every height and for every rule with
    a step of one or more and a start block of zero or more. *)
Lemma nextAligned_spec (h : Z) (rule : IntervalRule) :
  (1 <= value rule)%Z -> (0 <= startBlock rule)%Z ->
  (h < nextAligned h rule)%Z
  /\ ((startBlock rule - value rule <= h)%Z ->
      checkRuleAlignment (nextAligned h rule) rule = true).
Proof.
  intros Hv Ho. split.
  - apply getNextTargetHeight_gt.
  - intros Hh. now apply nextAligned_aligned.
Qed.

(* ------------------------------------------------------------------ *)
(** ** The martingale progression *)

Section Martingale.

Local Open Scope Qc_scope.

(** C7: with maxCycle 3, multiplier 2 and base 100, the stakes placed from
    the initial state along three losses are 100, 200 and 400; the third
    loss exhausts the cycle, so the fourth stake is 100 again and the loss
    streak is 0; a win from any state puts the stake back to the base and
    the loss streak to 0. *)
Theorem martingale_cap (cfg : StrategyConfig) (simCfg : SimConfig)
        (bal : Qc) (conf : Z) :
  sc_type cfg = MARTINGALE -> maxCycle cfg = 3%Z -> multiplier cfg = Num.ofZ 2 ->
  let base := Num.ofZ 100 in
  let s0 := initialState cfg base in
  let s1 := advance cfg base s0 false in
  let s2 := advance cfg base s1 false in
  let s3 := advance cfg base s2 false in
  let stake s := stakeOf simCfg (taskWith cfg base s) bal conf in
  stake s0 = Num.ofZ 100 /\ stake s1 = Num.ofZ 200 /\ stake s2 = Num.ofZ 400
  /\ stake s3 = Num.ofZ 100 /\ consecutiveLosses s3 = 0%Z
  /\ forall s, currentBetAmount (advance cfg base s true) = base
               /\ consecutiveLosses (advance cfg base s true) = 0%Z
               /\ stake (advance cfg base s true) = base.
Proof.
  intros Hty Hmax Hmul base s0 s1 s2 s3 stake.
  assert (Hstake : forall s, stake s = Num.floor (currentBetAmount s)).
  { intros s. unfold stake, stakeOf, taskWith. cbn [tconfig state]. now rewrite Hty. }
  assert (H0 : s0 = mkState 0 base 0).
  { unfold s0, initialState. now rewrite Hty. }
  assert (H1 : s1 = mkState 1 (Num.ofZ 200) 0).
  { unfold s1, advance. rewrite H0, Hty, Hmax, Hmul. reflexivity. }
  assert (H2 : s2 = mkState 2 (Num.ofZ 400) 0).
  { unfold s2, advance. rewrite H1, Hty, Hmax, Hmul. reflexivity. }
  assert (H3 : s3 = mkState 0 base 0).
  { unfold s3, advance. rewrite H2, Hty, Hmax. reflexivity. }
  assert (Hw : forall s, advance cfg base s true = mkState 0 base (sequenceIndex s)).
  { intros s. unfold advance. rewrite Hty. reflexivity. }
  rewrite !Hstake, H0, H1, H2, H3. cbn [currentBetAmount consecutiveLosses].
  repeat split; try reflexivity; rewrite ?Hstake, Hw; reflexivity.
Qed.

Lemma martingale_cap_witness :
  let stake s := stakeOf defaults (taskWith martingale3 (Num.ofZ 100) s)
                         (Num.ofZ 10000) 60 in
  let s0 := initialState martingale3 (Num.ofZ 100) in
  let s1 := advance martingale3 (Num.ofZ 100) s0 false in
  let s2 := advance martingale3 (Num.ofZ 100) s1 false in
  let s3 := advance martingale3 (Num.ofZ 100) s2 false in
  stake s0 = Num.ofZ 100 /\ stake s1 = Num.ofZ 200 /\ stake s2 = Num.ofZ 400
  /\ stake s3 = Num.ofZ 100 /\ consecutiveLosses s3 = 0%Z.
Proof.
  pose proof (@martingale_cap martingale3 defaults (Num.ofZ 10000) 60
                eq_refl eq_refl eq_refl) as H.
  cbv zeta in H. cbv zeta.
  destruct H as (A & B & C & D & E & _).
  exact (conj A (conj B (conj C (conj D E)))).
Defined.

End Martingale.

(* ------------------------------------------------------------------ *)
(** ** The heuristic predictor and its entropy test *)

Section Predictor.

Local Open Scope Qc_scope.

(** A draw below one gives an entropy of 30 at most: the test
    [entropy < 40] always passes. *)
Lemma entropy_below_40 (r : Qc) : r < 1 -> (entropyOf r <? 40)%Z = true.
Proof.
  intros Hr. apply Z.ltb_lt. unfold entropyOf, Num.round.
  apply Qfloor_lt_Z. qc_lra.
Qed.

Lemma runAIAnalysis_draw_free (rnd : nat -> Qc) (k : nat)
      (blocks : list BlockData) (rule : IntervalRule) :
  unitDraws rnd ->
  fst (runAIAnalysis rnd k blocks rule)
  = fst (runAIAnalysis (fun _ => 0) 0 blocks rule).
Proof.
  intros Hr. unfold runAIAnalysis.
  destruct (lengthZ _ <? 24)%Z; [reflexivity|].
  destruct (singleBest _ _) as [[nP cP] [nS cS]]. cbn [fst].
  rewrite (entropy_below_40 (proj2 (Hr k))).
  rewrite (@entropy_below_40 0) by (vm_compute; reflexivity).
  reflexivity.
Qed.

(** C10: the entropy drawn from the randomness source never changes the
    outcome: whatever the draws (in [0, 1)), the analysis of a given block
    window and rule, [shouldPredict] included, is the same. *)
Theorem shouldPredict_ignores_draws (rnd1 rnd2 : nat -> Qc) (k1 k2 : nat)
        (blocks : list BlockData) (rule : IntervalRule) :
  unitDraws rnd1 -> unitDraws rnd2 ->
  shouldPredict (fst (runAIAnalysis rnd1 k1 blocks rule))
  = shouldPredict (fst (runAIAnalysis rnd2 k2 blocks rule))
  /\ fst (runAIAnalysis rnd1 k1 blocks rule)
     = fst (runAIAnalysis rnd2 k2 blocks rule).
Proof.
  intros H1 H2.
  rewrite (runAIAnalysis_draw_free k1 blocks rule H1).
  rewrite (runAIAnalysis_draw_free k2 blocks rule H2).
  split; reflexivity.
Qed.

(** The bias test rounds.  With 17 odd blocks out of 25 the deviation
    [bias - 0.5] is the double 0.18000000000000005, above the double of
    0.18: the confidence is 94. *)
Example getBayesianConf_rounding :
  F64.sub (F64.div (F64.ofZ 17) (F64.ofZ 25)) (F64.ofQ 1 2)
  = S754_finite false 6485183463413516 (-55)
  /\ F64.ofQ 18 100 = S754_finite false 6485183463413514 (-55)
  /\ getBayesianConf (F64.div (F64.ofZ 17) (F64.ofZ 25)) = 94%Z.
Proof. repeat split; vm_compute; reflexivity. Qed.

Lemma unitDraws_const (c : Qc) : 0 <= c -> c < 1 -> unitDraws (fun _ => c).
Proof. intros H0 H1 n. split; assumption. Qed.

Lemma shouldPredict_ignores_draws_witness :
  shouldPredict (fst (runAIAnalysis (fun _ => 0) 0 oddRun rule1)) = true
  /\ shouldPredict (fst (runAIAnalysis (fun _ => Q2Qc (999 # 1000)) 0 oddRun rule1))
     = shouldPredict (fst (runAIAnalysis (fun _ => 0) 0 oddRun rule1)).
Proof.
  split.
  - vm_compute; reflexivity.
  - apply (@shouldPredict_ignores_draws
             (fun _ => Q2Qc (999 # 1000)) (fun _ => 0) 0 0 oddRun rule1).
    + intros n. split; [vm_compute; discriminate | vm_compute; reflexivity].
    + intros n. split; [vm_compute; discriminate | vm_compute; reflexivity].
Defined.

End Predictor.

(* ------------------------------------------------------------------ *)
(** ** Doubles *)

Section Doubles.

Local Open Scope Z_scope.

(** [SFcompare] is the order of the keys. *)
Lemma compare_key (x y : F64.float) :
  SFcompare x y
  = match F64.key x, F64.key y with
    | Some a, Some b => Some (F64.lex a b)
    | _, _ => None
    end.
Proof.
  destruct x as [[|]|[|]| |[|] m1 e1], y as [[|]|[|]| |[|] m2 e2];
    try reflexivity; unfold SFcompare, F64.key, F64.lex;
    change (IntDef.Z.compare e1 e2) with (e1 ?= e2);
    change (-1 ?= -1) with Eq; change (1 ?= 1) with Eq; cbv iota.
  rewrite Z.compare_opp, (Z.compare_antisym e1 e2).
    destruct (e1 ?= e2); reflexivity.
Qed.

Lemma lex_spec (a b : Z * Z * Z) :
  let '(a1, a2, a3) := a in
  let '(b1, b2, b3) := b in
  match F64.lex a b with
  | Lt => a1 < b1 \/ (a1 = b1 /\ (a2 < b2 \/ (a2 = b2 /\ a3 < b3)))
  | Eq => a1 = b1 /\ a2 = b2 /\ a3 = b3
  | Gt => b1 < a1 \/ (a1 = b1 /\ (b2 < a2 \/ (a2 = b2 /\ b3 < a3)))
  end.
Proof.
  destruct a as [[a1 a2] a3], b as [[b1 b2] b3]. unfold F64.lex.
  destruct (Z.compare_spec a1 b1); destruct (Z.compare_spec a2 b2);
    destruct (Z.compare_spec a3 b3); lia.
Qed.


Lemma ltb_key (x y : F64.float) :
  F64.ltb x y
  = match F64.key x, F64.key y with
    | Some a, Some b => match F64.lex a b with Lt => true | _ => false end
    | _, _ => false
    end.
Proof.
  unfold F64.ltb, SFltb. rewrite compare_key.
  destruct (F64.key x), (F64.key y); reflexivity.
Qed.

Lemma leb_key (x y : F64.float) :
  F64.leb x y
  = match F64.key x, F64.key y with
    | Some a, Some b => match F64.lex a b with Gt => false | _ => true end
    | _, _ => false
    end.
Proof.
  unfold F64.leb, SFleb. rewrite compare_key.
  destruct (F64.key x), (F64.key y); [destruct (F64.lex _ _)| | |]; reflexivity.
Qed.

Lemma eqb_key (x y : F64.float) :
  F64.eqb x y
  = match F64.key x, F64.key y with
    | Some a, Some b => match F64.lex a b with Eq => true | _ => false end
    | _, _ => false
    end.
Proof.
  unfold F64.eqb, SFeqb. rewrite compare_key.
  destruct (F64.key x), (F64.key y); reflexivity.
Qed.

Lemma isNaN_key (x : F64.float) :
  F64.isNaN x = match F64.key x with Some _ => false | None => true end.
Proof. destruct x as [[|]|[|]| |[|] m e]; reflexivity. Qed.

Lemma isFinite_key (x : F64.float) :
  F64.isFinite x
  = match F64.key x with
    | Some (c, _, _) => (-1 <=? c) && (c <=? 1)
    | None => false
    end.
Proof. destruct x as [[|]|[|]| |[|] m e]; reflexivity. Qed.

Lemma lex_eq (a b : Z * Z * Z) : F64.lex a b = Eq -> a = b.
Proof.
  intros H. pose proof (lex_spec a b) as L.
  destruct a as [[a1 a2] a3], b as [[b1 b2] b3]. rewrite H in L.
  destruct L as (-> & -> & ->). reflexivity.
Qed.

(** [Math.max] and [Math.min] on the keys. *)
Lemma max_key (x y : F64.float) :
  F64.key (F64.max x y)
  = match F64.key x, F64.key y with
    | Some a, Some b => Some (match F64.lex a b with Lt => b | _ => a end)
    | _, _ => None
    end.
Proof.
  unfold F64.max. rewrite compare_key.
  destruct (F64.key x) as [a|] eqn:Hx; [|reflexivity].
  destruct (F64.key y) as [b|] eqn:Hy; [|reflexivity].
  destruct (F64.lex a b) eqn:Hl; try assumption.
  apply lex_eq in Hl. subst b.
  destruct x as [[|]|[|]| |[|] m e]; congruence.
Qed.

Lemma min_key (x y : F64.float) :
  F64.key (F64.min x y)
  = match F64.key x, F64.key y with
    | Some a, Some b => Some (match F64.lex a b with Gt => b | _ => a end)
    | _, _ => None
    end.
Proof.
  unfold F64.min. rewrite compare_key.
  destruct (F64.key x) as [a|] eqn:Hx; [|reflexivity].
  destruct (F64.key y) as [b|] eqn:Hy; [|reflexivity].
  destruct (F64.lex a b) eqn:Hl; try assumption.
  apply lex_eq in Hl. subst b.
  destruct x as [[|]|[|]| |[|] m e]; congruence.
Qed.










End Doubles.

(* ------------------------------------------------------------------ *)
(** ** The Kelly stake *)

Section Kelly.

Local Open Scope Z_scope.

Ltac lex_cases :=
  repeat match goal with
  | |- context [F64.lex ?a ?b] =>
      let L := fresh "L" in
      pose proof (lex_spec a b) as L; cbv beta iota zeta in L;
      destruct (F64.lex a b)
  | H : context [F64.lex ?a ?b] |- _ =>
      let L := fresh "L" in
      pose proof (lex_spec a b) as L; cbv beta iota zeta in L;
      destruct (F64.lex a b)
  end.

Ltac to_keys :=
  rewrite ?ltb_key, ?leb_key, ?eqb_key, ?isNaN_key, ?isFinite_key,
    ?min_key, ?max_key in *;
  change (F64.key F64.zero) with (Some (0, 0, 0)) in *.

(** Goals on the order of doubles, sent to the order of their keys. *)
Ltac order :=
  to_keys;
  repeat match goal with
  | |- context [F64.key ?x] =>
      let a := fresh "a" in let b := fresh "b" in let c := fresh "c" in
      destruct (F64.key x) as [[[a b] c]|]
  | H : context [F64.key ?x] |- _ =>
      let a := fresh "a" in let b := fresh "b" in let c := fresh "c" in
      destruct (F64.key x) as [[[a b] c]|]
  end;
  try discriminate; try reflexivity;
  lex_cases; try discriminate; try reflexivity; try lia.



Lemma kellyStake_eq (odds base : F64.float) (kf : option F64.float)
      (bal conf : F64.float) :
  kellyStake odds base kf bal conf
  = F64.min (F64.max base (if F64.ltb F64.zero (kellyF odds conf)
                           then kellyRaw odds kf bal conf
                           else base))
            bal.
Proof. reflexivity. Qed.


(** The clamp [Math.min(Math.max(base, amount), bankroll)], for any
    amount. *)
Lemma clamp_le (base amt bal : F64.float) :
  F64.ltb bal (F64.min (F64.max base amt) bal) = false.
Proof. order. Qed.





(** The spec's example: confidence 60, odds 1.98, bankroll 1000, risk
    fraction 0.2, base 100.  The amount of the [f > 0] branch is 38 and the
    stake placed is the base, 100. *)
Example kelly_example :
  kellyRaw (F64.ofQ 198 100) (Some (F64.ofQ 2 10)) (F64.ofZ 1000) (F64.ofZ 60)
  = F64.ofZ 38
  /\ kellyAmount defaults (Some (Q2Qc (2 # 10))) (Num.ofZ 1000) 60
     = Num.ofZ 100.
Proof. qc_compute. Qed.

(** Rounding shows in the stake.  At odds 2 and confidence 60 the fraction
    [f] is the double 0.19999999999999996, below the double of 0.2, and
    with a bankroll of 10000 and risk fraction 0.2 the stake is 399; at
    confidence 94 it is 1759. *)
Example kelly_rounding :
  kellyF (F64.ofZ 2) (F64.ofZ 60) = S754_finite false 7205759403792792 (-55)
  /\ F64.ltb (kellyF (F64.ofZ 2) (F64.ofZ 60)) (F64.ofQ 2 10) = true
  /\ kellyAmount evenMoney (Some (Q2Qc (2 # 10))) (Num.ofZ 10000) 60
     = Num.ofZ 399
  /\ kellyAmount evenMoney (Some (Q2Qc (2 # 10))) (Num.ofZ 10000) 94
     = Num.ofZ 1759.
Proof. qc_compute. Qed.




End Kelly.

(* ------------------------------------------------------------------ *)
(** ** The manual gateway *)

Section Gateway.

Local Open Scope Qc_scope.

Lemma placeManual_duplicate (st : EngineState) (h : Z) (ty : BetType)
      (target : BetTarget) (amt : Qc) (rule : IntervalRule) :
  manualDuplicate (bets st) h rule = true ->
  placeManual st h ty target amt rule = (false, st).
Proof.
  unfold manualDuplicate, placeManual, placeBet. intros H. now rewrite H.
Qed.

Lemma placeManual_accepted (st : EngineState) (h : Z) (ty : BetType)
      (target : BetTarget) (amt : Qc) (rule : IntervalRule) :
  manualDuplicate (bets st) h rule = false ->
  placeManual st h ty target amt rule
  = (true,
     mkEngine (balance st - amt)
              (mkBet None (rule_id rule) h ty target amt (cfg_odds (config st))
                     PENDING 0 0 :: bets st)
              (config st) (tasks st) (globalMetrics st)).
Proof.
  unfold manualDuplicate, placeManual, placeBet. intros H. now rewrite H.
Qed.

(** C5: the manual gateway of the multi-task component has no bankroll
    test.  With 50 in the account and an empty ledger a manual wager of 100
    is accepted: [placeBet] returns true, the wager enters the ledger and
    the balance drops to -50. *)
Theorem placeManual_overdraws :
  fst (placeManual nearlyEmpty 11 PARITY T_ODD (Num.ofZ 100) rule1) = true
  /\ balance (snd (placeManual nearlyEmpty 11 PARITY T_ODD (Num.ofZ 100) rule1))
     = Num.ofZ (-50)
  /\ List.length (bets (snd (placeManual nearlyEmpty 11 PARITY T_ODD
                                         (Num.ofZ 100) rule1))) = 1%nat.
Proof. qc_compute. Qed.

(** The gateway of the single-strategy component does refuse both: a stake
    above the balance, and a wager on a height of the rule that already
    carries one; the state is left as it was. *)
Lemma V2_placeManual_rejects (rule : IntervalRule) (oddsV : Qc) (st : V2.State)
      (h : Z) (ty : BetType) (target : BetTarget) (amt : Qc) :
  V2.v2_balance st < amt
  \/ existsb (fun b => (targetHeight b =? h)%Z
                       && String.eqb (ruleId b) (rule_id rule))
             (V2.v2_bets st) = true ->
  V2.placeManual rule oddsV st h ty target amt = (false, st).
Proof.
  unfold V2.placeManual, V2.placeBet. intros [H|H].
  - apply ltb_lt in H. now rewrite H.
  - rewrite H. destruct (V2.v2_balance st <? amt); reflexivity.
Qed.

Example V2_placeManual_refuses_overdraw :
  V2.placeManual rule1 (Q2Qc (198 # 100)) nearlyEmptyV2 11 PARITY T_ODD (Num.ofZ 100)
  = (false, nearlyEmptyV2).
Proof.
  apply V2_placeManual_rejects. left. vm_compute; reflexivity.
Qed.

End Gateway.

(* ------------------------------------------------------------------ *)
(** ** The bankruptcy test of the placement pass *)

Section Bankruptcy.

Local Open Scope Qc_scope.

(** C4: the bankruptcy test compares the bankroll with the base stake of
    the task, not with the stake it is about to place.  A martingale task
    with base 100 whose next stake is 800 meets a bankroll of 300: it stays
    active, the wager of 800 is placed and the balance becomes -500. *)
Theorem engine_stakes_beyond_bankroll :
  let st' := engine (fun _ => 0) [block10] [rule1] lowBankroll in
  balance st' = Num.ofZ (-500)
  /\ (exists b, bets st' = [b] /\ amount b = Num.ofZ 800 /\ status b = PENDING)
  /\ map isActive (tasks st') = [true].
Proof.
  cbv zeta. split; [qc_compute|]. split.
  - eexists. split; [vm_compute; reflexivity|]. qc_compute.
  - vm_compute; reflexivity.
Qed.

(** The test of the placement pass, as it is. *)
Lemma processTask_bankrupt (rnd : nat -> Qc) (allBlocks : list BlockData)
      (rules : list IntervalRule) (cfg : SimConfig) (h0 : Z)
      (L : PlaceLocals) (task : AutoTask) :
  isActive task = true -> p_balance L < baseBet task ->
  processTask rnd allBlocks rules cfg h0 L task
  = (mkPL (p_balance L) (p_bets L) (p_draws L) (p_betsChanged L) true,
     setActive task false).
Proof.
  intros Ha Hb. unfold processTask. rewrite Ha. cbn [negb].
  apply ltb_lt in Hb. now rewrite Hb.
Qed.

(** The engine before the Kelly mode compares with the stake to place: a
    task whose next stake is above the bankroll is stopped and places
    nothing. *)
Lemma V3_processTask_bankrupt (allBlocks : list BlockData)
      (rules : list IntervalRule) (cfg : SimConfig) (h0 : Z)
      (L : PlaceLocals) (task : AutoTask) :
  isActive task = true -> p_balance L < currentBetAmount (state task) ->
  V3.processTask allBlocks rules cfg h0 L task
  = (mkPL (p_balance L) (p_bets L) (p_draws L) (p_betsChanged L) true,
     setActive task false).
Proof.
  intros Ha Hb. unfold V3.processTask. rewrite Ha. cbn [negb].
  apply ltb_lt in Hb. now rewrite Hb.
Qed.

(** There every stake placed is within the bankroll. *)
Lemma V3_processTask_within_bankroll (allBlocks : list BlockData)
      (rules : list IntervalRule) (cfg : SimConfig) (h0 : Z)
      (L : PlaceLocals) (task : AutoTask) :
  let L' := fst (V3.processTask allBlocks rules cfg h0 L task) in
  p_bets L' = p_bets L
  \/ exists b, p_bets L' = b :: p_bets L
               /\ amount b <= p_balance L
               /\ p_balance L' = p_balance L - amount b.
Proof.
  cbv zeta. unfold V3.processTask.
  destruct (isActive task); cbn [negb]; [|now left].
  destruct (p_balance L <? currentBetAmount (state task)) eqn:Hb; [now left|].
  destruct (find _ rules) as [rule|]; [|now left].
  destruct (alreadyBet _ _ _ _); [now left|].
  destruct (V3.decide allBlocks rule task) as [[ty target]|]; [|now left].
  right. eexists. split; [reflexivity|]. cbn [amount fst unshiftBet p_balance].
  split; [|reflexivity].
  apply ltb_ge in Hb.
  eapply Qcle_trans; [|exact Hb].
  unfold Num.floor. unfold Qcle. rewrite this_ofZ. apply Qfloor_le.
Qed.

(** A Kelly stake is within the bankroll in the present engine too: the
    cap is the last step of its computation.  The stake is the value of a
    double that is not above the double of the bankroll. *)
Lemma stakeOf_kelly_within_bankroll (cfg : SimConfig) (task : AutoTask)
      (bal : Qc) (conf : Z) :
  sc_type (tconfig task) = AI_KELLY ->
  exists stake : F64.float,
    stakeOf cfg task bal conf = F64.toQc stake
    /\ F64.ltb (F64.ofQc bal) stake = false.
Proof.
  intros H. unfold stakeOf, kellyAmount. rewrite H.
  eexists. split; [reflexivity|].
  rewrite kellyStake_eq. apply clamp_le.
Qed.

Example V3_stops_the_chaser :
  V3.processTask [block10] [rule1] (config lowBankroll) 10
                 (mkPL (Num.ofZ 300) [] 0 false false) chaser
  = (mkPL (Num.ofZ 300) [] 0 false true, setActive chaser false).
Proof.
  apply V3_processTask_bankrupt; vm_compute; reflexivity.
Qed.

End Bankruptcy.

(* ------------------------------------------------------------------ *)
(** ** The settlement pass *)

Section Settlement.

Local Open Scope Qc_scope.

Variable allBlocks : list BlockData.

Lemma updateFirstTask_not_found (tid : string) (f : AutoTask -> AutoTask)
      (ts : list AutoTask) :
  snd (updateFirstTask tid f ts) = false -> fst (updateFirstTask tid f ts) = ts.
Proof.
  induction ts as [|t rest IH]; cbn; [reflexivity|].
  destruct (String.eqb (id t) tid); cbn; [discriminate|].
  destruct (updateFirstTask tid f rest) as [rest' found]. cbn in *.
  intros H. now rewrite IH.
Qed.

Lemma settleOwner_not_found (bet : BetRecord) (isWin : bool) (pay : Qc)
      (ts : list AutoTask) :
  snd (settleOwner bet isWin pay ts) = false ->
  fst (settleOwner bet isWin pay ts) = ts.
Proof.
  unfold settleOwner. destruct (noTaskId bet); [reflexivity|].
  apply updateFirstTask_not_found.
Qed.

(** A wager that is not pending is left alone, and so is a pending wager
    whose block has not come. *)
Lemma settleOne_settled (L : SettleLocals) (bet : BetRecord) :
  status bet <> PENDING -> settleOne allBlocks L bet = (L, bet).
Proof.
  intros H. unfold settleOne. destruct (status bet); [congruence| |]; reflexivity.
Qed.

Lemma settleOne_waiting (L : SettleLocals) (bet : BetRecord) :
  findBlock allBlocks (targetHeight bet) = None ->
  settleOne allBlocks L bet = (L, bet).
Proof.
  intros H. unfold settleOne. rewrite H. now destruct (isPending _).
Qed.

(** What one turn of the settlement pass does. *)
Lemma settleOne_cases (L : SettleLocals) (bet : BetRecord) :
  settleOne allBlocks L bet = (L, bet)
  \/ (status bet = PENDING
      /\ let L' := fst (settleOne allBlocks L bet) in
         let bet' := snd (settleOne allBlocks L bet) in
         status bet' <> PENDING
         /\ wagerKey bet' = wagerKey bet
         /\ payout bet' = replayPayout bet'
         /\ s_balance L' = s_balance L + replayPayout bet'
         /\ balanceAfter bet' = s_balance L'
         /\ s_betsChanged L' = true).
Proof.
  unfold settleOne.
  destruct (status bet) eqn:Hs; cbn [isPending]; [|now left|now left].
  destruct (findBlock allBlocks (targetHeight bet)) as [blk|]; [|now left].
  right. split; [reflexivity|]. cbn [fst snd].
  unfold settleRecord, replayPayout, wagerKey.
  cbn [status payout balanceAfter s_balance s_betsChanged amount odds
       ruleId targetHeight taskId].
  destruct (isWinFor bet blk); repeat split; congruence.
Qed.

Lemma settleOne_key (L : SettleLocals) (bet : BetRecord) :
  wagerKey (snd (settleOne allBlocks L bet)) = wagerKey bet.
Proof.
  destruct (settleOne_cases L bet) as [H|(_ & _ & H & _)]; [now rewrite H|exact H].
Qed.

(** A second turn on the result changes nothing. *)
Lemma settleOne_fix (L L2 : SettleLocals) (bet : BetRecord) :
  settleOne allBlocks L2 (snd (settleOne allBlocks L bet))
  = (L2, snd (settleOne allBlocks L bet)).
Proof.
  destruct (findBlock allBlocks (targetHeight bet)) as [blk|] eqn:Hf.
  - destruct (settleOne_cases L bet) as [H|(_ & H & _)].
    + assert (Hs : status bet <> PENDING).
      { intros Hp. unfold settleOne in H. rewrite Hp, Hf in H. cbn in H.
        inversion H as [[HL Hb]].
        apply (f_equal status) in Hb. cbn in Hb.
        destruct (isWinFor bet blk); congruence. }
      rewrite H. cbn [snd]. now apply settleOne_settled.
    + now apply settleOne_settled.
  - rewrite (settleOne_waiting L bet Hf). cbn [snd].
    now apply settleOne_waiting.
Qed.

Lemma settleAll_fix (l : list BetRecord) (L L2 : SettleLocals) :
  settleAll allBlocks L2 (snd (settleAll allBlocks L l))
  = (L2, snd (settleAll allBlocks L l)).
Proof.
  revert L L2. induction l as [|bet rest IH]; intros L L2; cbn; [reflexivity|].
  destruct (settleOne allBlocks L bet) as [L1 bet'] eqn:H1.
  destruct (settleAll allBlocks L1 rest) as [L3 rest'] eqn:H3.
  cbn [snd settleAll].
  replace bet' with (snd (settleOne allBlocks L bet)) by now rewrite H1.
  rewrite settleOne_fix.
  replace rest' with (snd (settleAll allBlocks L1 rest)) by now rewrite H3.
  now rewrite IH.
Qed.

(** The three flags only go up, and a flag that is still down says that
    what it guards has not moved. *)
Lemma settleOne_flags (L : SettleLocals) (bet : BetRecord) :
  let L' := fst (settleOne allBlocks L bet) in
  (s_betsChanged L = true -> s_betsChanged L' = true)
  /\ (s_tasksChanged L = true -> s_tasksChanged L' = true)
  /\ (s_metricsChanged L = true -> s_metricsChanged L' = true)
  /\ (s_betsChanged L' = false -> settleOne allBlocks L bet = (L, bet))
  /\ (s_tasksChanged L' = false -> s_tasks L' = s_tasks L)
  /\ (s_metricsChanged L' = false -> s_maxDD L' = s_maxDD L).
Proof.
  unfold settleOne.
  destruct (isPending (status bet)); [|cbn; tauto].
  destruct (findBlock allBlocks (targetHeight bet)) as [blk|]; [|cbn; tauto].
  cbn [fst s_betsChanged s_tasksChanged s_metricsChanged s_tasks s_maxDD].
  repeat split.
  - intros H. now rewrite H.
  - intros H. now rewrite H.
  - discriminate.
  - intros H. apply orb_false_elim in H. destruct H as [_ H].
    now apply settleOwner_not_found.
  - intros H. apply orb_false_elim in H. destruct H as [_ H]. now rewrite H.
Qed.

Lemma settleAll_flags (l : list BetRecord) (L : SettleLocals) :
  let L' := fst (settleAll allBlocks L l) in
  (s_betsChanged L = true -> s_betsChanged L' = true)
  /\ (s_tasksChanged L = true -> s_tasksChanged L' = true)
  /\ (s_metricsChanged L = true -> s_metricsChanged L' = true)
  /\ (s_betsChanged L' = false -> settleAll allBlocks L l = (L, l))
  /\ (s_tasksChanged L' = false -> s_tasks L' = s_tasks L)
  /\ (s_metricsChanged L' = false -> s_maxDD L' = s_maxDD L).
Proof.
  revert L. induction l as [|bet rest IH]; intros L; cbn; [tauto|].
  pose proof (settleOne_flags L bet) as H1.
  destruct (settleOne allBlocks L bet) as [L1 bet'] eqn:E1.
  pose proof (IH L1) as H2.
  destruct (settleAll allBlocks L1 rest) as [L2 rest'] eqn:E2.
  cbn [fst] in *.
  destruct H1 as (A1 & B1 & C1 & D1 & F1 & G1).
  destruct H2 as (A2 & B2 & C2 & D2 & F2 & G2).
  repeat split; auto.
  - intros H. specialize (D2 H). inversion D2; subst.
    assert (Hb : s_betsChanged L1 = false).
    { destruct (s_betsChanged L1) eqn:E; [|reflexivity].
      specialize (A2 eq_refl). congruence. }
    specialize (D1 Hb). inversion D1; subst. reflexivity.
  - intros H. rewrite (F2 H). apply F1.
    destruct (s_tasksChanged L1) eqn:E; [|reflexivity].
    specialize (B2 eq_refl). congruence.
  - intros H. rewrite (G2 H). apply G1.
    destruct (s_metricsChanged L1) eqn:E; [|reflexivity].
    specialize (C2 eq_refl). congruence.
Qed.

Lemma settleAll_keys (l : list BetRecord) (L : SettleLocals) :
  keys (snd (settleAll allBlocks L l)) = keys l.
Proof.
  revert L. induction l as [|bet rest IH]; intros L; cbn; [reflexivity|].
  pose proof (settleOne_key L bet) as Hk.
  destruct (settleOne allBlocks L bet) as [L1 bet'].
  specialize (IH L1).
  destruct (settleAll allBlocks L1 rest) as [L2 rest'].
  cbn in *. now rewrite Hk, IH.
Qed.

Lemma settleAll_length (l : list BetRecord) (L : SettleLocals) :
  List.length (snd (settleAll allBlocks L l)) = List.length l.
Proof.
  pose proof (settleAll_keys l L) as H. unfold keys in H.
  apply (f_equal (@List.length _)) in H. now rewrite !length_map in H.
Qed.

End Settlement.

Section SettlementReplay.

Local Open Scope Qc_scope.

Variable allBlocks : list BlockData.

Lemma settledBetween_same (l : list BetRecord) : settledBetween l l = [].
Proof.
  induction l as [|b rest IH]; cbn; [reflexivity|].
  rewrite andb_negb_r. exact IH.
Qed.

Lemma replay_cons (bal : Qc) (e : LedgerEvent) (l : list LedgerEvent) :
  replay bal (e :: l) = replay (applyEvent bal e) l.
Proof. reflexivity. Qed.

Lemma replay_app (bal : Qc) (a b : list LedgerEvent) :
  replay bal (a ++ b) = replay (replay bal a) b.
Proof. unfold replay. apply fold_left_app. Qed.

Lemma stamped_app (bal : Qc) (a b : list LedgerEvent) :
  stamped bal (a ++ b) <-> stamped bal a /\ stamped (replay bal a) b.
Proof.
  revert bal. induction a as [|e rest IH]; intros bal; cbn [app stamped].
  - cbn. tauto.
  - rewrite IH. change (replay bal (e :: rest)) with (replay (applyEvent bal e) rest).
    tauto.
Qed.

Lemma stamped_placed (bal : Qc) (l : list BetRecord) :
  stamped bal (map Placed l).
Proof.
  revert bal. induction l as [|b rest IH]; intros bal; cbn; auto.
Qed.

(** The settlements of a stamped journal carry the balance of the replay. *)
Lemma stamped_split (bal : Qc) (pre post : list LedgerEvent) (b : BetRecord) :
  stamped bal (pre ++ Settled b :: post) ->
  replay bal (pre ++ [Settled b]) = balanceAfter b.
Proof.
  intros H. apply stamped_app in H. destruct H as [_ H].
  rewrite replay_app. cbn in H. cbn. tauto.
Qed.

(** The settlement pass credits the payouts in ledger order and stamps each
    settled wager with the running balance. *)
Lemma settleAll_journal (l : list BetRecord) (L : SettleLocals) :
  let L' := fst (settleAll allBlocks L l) in
  let updated := snd (settleAll allBlocks L l) in
  s_balance L' = replay (s_balance L) (settledBetween l updated)
  /\ stamped (s_balance L) (settledBetween l updated)
  /\ (forall b, In b updated -> status b <> PENDING ->
                (In b l /\ status b <> PENDING)
                \/ In (Settled b) (settledBetween l updated)).
Proof.
  revert L. induction l as [|bet rest IH]; intros L; cbn [settleAll].
  - cbn. repeat split; intros; contradiction.
  - pose proof (settleOne_cases allBlocks L bet) as H1.
    destruct (settleOne allBlocks L bet) as [L1 bet'] eqn:E1.
    pose proof (IH L1) as H2.
    destruct (settleAll allBlocks L1 rest) as [L2 rest'] eqn:E2.
    cbn [fst snd] in *. destruct H2 as (A2 & B2 & C2).
    destruct H1 as [H1|(Hp & Hs & _ & _ & Hbal & Hst & _)].
    + inversion H1; subst L1 bet'. cbn [settledBetween].
      rewrite andb_negb_r. cbn [app]. repeat split; auto.
      intros b [Hb|Hb] Hns.
      * left. split; [now left|assumption].
      * destruct (C2 b Hb Hns) as [[Hin ?]|Hin]; [left; split; [now right|assumption]|now right].
    + assert (Hnp : isPending (status bet') = false).
      { destruct (status bet'); [congruence| |]; reflexivity. }
      cbn [settledBetween]. rewrite Hp, Hnp. cbn [isPending negb andb app].
      rewrite replay_cons.
      cbn [stamped applyEvent]. rewrite <- Hbal.
      split; [exact A2|]. split; [split; [now symmetry|exact B2]|].
      intros b [Hb|Hb] Hns.
      * right. left. now subst.
      * destruct (C2 b Hb Hns) as [[Hin ?]|Hin].
        -- left. split; [now right|assumption].
        -- right. now right.
Qed.

(** The state committed by the settlement step. *)
Lemma settle_eq (b0 : BlockData) (blocks : list BlockData) (st : EngineState) :
  allBlocks = b0 :: blocks ->
  let SL := fst (settlePass allBlocks st) in
  settle allBlocks st
  = mkEngine (s_balance SL) (snd (settlePass allBlocks st)) (config st)
             (s_tasks SL) (mkMetrics (s_peak SL) (s_maxDD SL)).
Proof.
  intros Hb. cbv zeta. unfold settle. rewrite Hb. rewrite <- Hb.
  unfold settlePass.
  pose proof (settleAll_flags allBlocks (bets st)
                (mkSL (balance st) (peakBalance (globalMetrics st))
                      (gm_maxDrawdown (globalMetrics st)) (tasks st)
                      false false false)) as H.
  destruct (settleAll allBlocks _ (bets st)) as [SL updated] eqn:E.
  cbn [fst snd] in *. destruct H as (_ & _ & _ & D & F & G).
  unfold commit. cbn [p_betsChanged p_balance p_bets p_tasksChanged].
  f_equal.
  - destruct (s_betsChanged SL); [reflexivity|].
    specialize (D eq_refl). now inversion D.
  - destruct (s_betsChanged SL); [reflexivity|].
    specialize (D eq_refl). now inversion D.
  - destruct (s_tasksChanged SL); [reflexivity|]. now rewrite F.
  - destruct (s_metricsChanged SL); [reflexivity|]. cbn [orb].
    destruct (Qc_eq_dec (s_peak SL) (peakBalance (globalMetrics st))) as [Hp|Hp];
      [|reflexivity].
    cbn [negb]. rewrite Hp, (G eq_refl).
    now destruct (globalMetrics st).
Qed.

(** C3: the settlement step is idempotent.  Run a second time on the same
    blocks it leaves the whole state as it is: the balance, every wager
    (status, payout, balanceAfter), the tasks and the drawdown record. *)
Theorem settle_idempotent (st : EngineState) :
  settle allBlocks (settle allBlocks st) = settle allBlocks st.
Proof.
  destruct allBlocks as [|b0 blocks] eqn:Hb; [reflexivity|]. rewrite <- Hb.
  rewrite (settle_eq st Hb). cbv zeta.
  set (SL := fst (settlePass allBlocks st)).
  set (updated := snd (settlePass allBlocks st)).
  set (st1 := mkEngine (s_balance SL) updated (config st) (s_tasks SL)
                       (mkMetrics (s_peak SL) (s_maxDD SL))).
  assert (H : settlePass allBlocks st1
              = (mkSL (s_balance SL) (s_peak SL) (s_maxDD SL) (s_tasks SL)
                      false false false, updated)).
  { unfold settlePass at 1. unfold st1 at 1 2 3 4 5.
    cbn [balance bets tasks globalMetrics peakBalance gm_maxDrawdown].
    unfold updated, settlePass. apply settleAll_fix. }
  rewrite (@settle_eq b0 blocks st1 Hb). cbv zeta. rewrite H. reflexivity.
Qed.

(** A settled wager is never taken up again, whatever the blocks. *)
Lemma settleAll_keeps_settled (l : list BetRecord) (L : SettleLocals)
      (b : BetRecord) :
  In b l -> status b <> PENDING -> In b (snd (settleAll allBlocks L l)).
Proof.
  revert L. induction l as [|bet rest IH]; intros L Hin Hs; [contradiction|].
  cbn. destruct (settleOne allBlocks L bet) as [L1 bet'] eqn:E1.
  specialize (IH L1).
  destruct (settleAll allBlocks L1 rest) as [L2 rest'] eqn:E2.
  cbn [snd] in *. destruct Hin as [->|Hin].
  - rewrite (@settleOne_settled allBlocks L b Hs) in E1. inversion E1. now left.
  - right. now apply IH.
Qed.

End SettlementReplay.

(* ------------------------------------------------------------------ *)
(** ** The placement pass *)

Section Placement.

Local Open Scope Qc_scope.

Variable rnd : nat -> Qc.
Variable allBlocks : list BlockData.
Variable rules : list IntervalRule.
Variable cfg : SimConfig.
Variable h0 : Z.

Lemma alreadyBet_false (l : list BetRecord) (h : Z) (rid : string)
      (task : AutoTask) :
  alreadyBet l h rid task = false -> ~ In (rid, h, Some (id task)) (keys l).
Proof.
  unfold alreadyBet, keys. intros H Hin.
  apply in_map_iff in Hin. destruct Hin as (b & Hk & Hb).
  assert (Hf : existsb (fun b => (targetHeight b =? h)%Z && String.eqb (ruleId b) rid
                                  && taskIdIs b (id task)) l = true).
  { apply existsb_exists. exists b. split; [assumption|].
    unfold wagerKey in Hk. inversion Hk as [[Hr Hh Ht]].
    unfold taskIdIs. rewrite Ht, Z.eqb_refl, !String.eqb_refl. reflexivity. }
  congruence.
Qed.

Lemma placed_same (L L' : PlaceLocals) :
  p_bets L' = p_bets L -> p_balance L' = p_balance L ->
  p_betsChanged L' = p_betsChanged L ->
  placedOnTop L L' [].
Proof.
  intros Hb Hbal Hf. unfold placedOnTop. cbn [app rev map].
  repeat split; auto; try congruence.
Qed.

Lemma placed_unshift (L L1 : PlaceLocals) (task : AutoTask) (rid : string)
      (h : Z) (ty : BetType) (target : BetTarget) (amt : Qc) :
  p_bets L1 = p_bets L -> p_balance L1 = p_balance L ->
  alreadyBet (p_bets L1) h rid task = false ->
  exists b, placedOnTop L (unshiftBet cfg L1 task rid h ty target amt) [b].
Proof.
  intros Hb Hbal Hdup. eexists. unfold placedOnTop, unshiftBet.
  cbn [p_bets p_balance p_betsChanged app rev map].
  rewrite Hb, Hbal. repeat split.
  - repeat constructor.
  - intros H. discriminate H.
  - intros Hnd. unfold keys. cbn [map]. constructor; [|exact Hnd].
    rewrite Hb in Hdup. exact (alreadyBet_false _ _ _ _ Hdup).
Qed.

Lemma placed_candidate (L L1 : PlaceLocals) (task : AutoTask)
      (best : Candidate) (rule : IntervalRule) (conf : Z) :
  p_bets L1 = p_bets L -> p_balance L1 = p_balance L ->
  p_betsChanged L1 = p_betsChanged L ->
  exists news, placedOnTop L (placeCandidate cfg L1 task best rule conf) news.
Proof.
  intros Hb Hbal Hf. unfold placeCandidate.
  destruct (alreadyBet (p_bets L1) (c_height best) (rule_id rule) task) eqn:Hd.
  - exists []. now apply placed_same.
  - destruct (@placed_unshift L L1 task (rule_id rule) (c_height best) (c_type best)
                (c_target best) (stakeOf cfg task (p_balance L1) conf)
                Hb Hbal Hd) as [b H].
    now exists [b].
Qed.

(** One task places one wager at most, on a combination that carries none. *)
Lemma processTask_places (L : PlaceLocals) (task : AutoTask) :
  exists news,
    placedOnTop L (fst (processTask rnd allBlocks rules cfg h0 L task)) news.
Proof.
  unfold processTask.
  destruct (isActive task); cbn [negb];
    [|exists []; now apply placed_same].
  destruct (p_balance L <? baseBet task);
    [exists []; now apply placed_same|].
  destruct (autoTarget (tconfig task)) eqn:Hmode.
  all: try (destruct (find _ rules) as [rule|];
            [|exists []; now apply placed_same];
            destruct (alreadyBet (p_bets L) _ (rule_id rule) task) eqn:Hd;
            [exists []; now apply placed_same|];
            destruct (decideStandard rnd (p_draws L) allBlocks rule task)
              as [[[[ty target] conf]|] k'];
            cbn [fst];
            [ destruct (@placed_unshift L (withDraws L k') task (rule_id rule)
                          (getNextTargetHeight h0 (value rule) (startBlock rule))
                          ty target
                          (stakeOf cfg task (p_balance (withDraws L k')) conf)
                          eq_refl eq_refl Hd) as [b Hb];
              now exists [b]
            | exists []; now apply placed_same ]).
  - destruct (hasPendingOf (p_bets L) task);
      [exists []; now apply placed_same|].
    destruct (c_rule _) as [rule|]; [|exists []; now apply placed_same].
    destruct (minStreak (tconfig task) <=? _)%Z;
      [|exists []; now apply placed_same].
    cbn [fst]. now apply placed_candidate.
  - destruct (hasPendingOf (p_bets L) task);
      [exists []; now apply placed_same|].
    destruct (c_rule _) as [rule|]; [|exists []; now apply placed_same].
    destruct (minStreak (tconfig task) <=? _)%Z;
      [|exists []; now apply placed_same].
    cbn [fst]. now apply placed_candidate.
  - destruct (hasPendingOf (p_bets L) task);
      [exists []; now apply placed_same|].
    destruct (fold_left _ rules (noCandidate, p_draws L)) as [best k'].
    destruct (c_rule best) as [rule|]; [|exists []; now apply placed_same].
    destruct (94 <=? c_score best)%Z; [|exists []; now apply placed_same].
    cbn [fst]. now apply placed_candidate.
Qed.

Lemma placed_trans (L L1 L2 : PlaceLocals) (n1 n2 : list BetRecord) :
  placedOnTop L L1 n1 -> placedOnTop L1 L2 n2 -> placedOnTop L L2 (n2 ++ n1).
Proof.
  intros (A1 & B1 & C1 & D1 & E1 & F1) (A2 & B2 & C2 & D2 & E2 & F2).
  unfold placedOnTop. repeat split.
  - rewrite A2, A1. apply app_assoc.
  - apply Forall_app. now split.
  - rewrite C2, C1, rev_app_distr, map_app. symmetry. apply replay_app.
  - intros H. apply app_eq_nil in H. destruct H as [H2 H1].
    rewrite (D2 H2). exact (D1 H1).
  - intros H. destruct n2 as [|b n2].
    + rewrite (D2 eq_refl). apply E1. exact H.
    + apply E2. discriminate.
  - auto.
Qed.

Lemma placeAll_places (ts : list AutoTask) (L : PlaceLocals) :
  exists news,
    placedOnTop L (fst (placeAll rnd allBlocks rules cfg h0 L ts)) news.
Proof.
  revert L. induction ts as [|t rest IH]; intros L; cbn [placeAll].
  - exists []. now apply placed_same.
  - destruct (processTask_places L t) as [n1 H1].
    destruct (processTask rnd allBlocks rules cfg h0 L t) as [L1 t'].
    destruct (IH L1) as [n2 H2].
    destruct (placeAll rnd allBlocks rules cfg h0 L1 rest) as [L2 rest'].
    cbn [fst] in *. exists (n2 ++ n1). eapply placed_trans; eassumption.
Qed.

Lemma placePass_places (SL : SettleLocals) (updated : list BetRecord) :
  exists news,
    placedOnTop (mkPL (s_balance SL) updated 0 (s_betsChanged SL) (s_tasksChanged SL))
                (fst (placePass rnd allBlocks rules cfg h0 SL updated)) news.
Proof.
  unfold placePass.
  destruct (globalStop cfg (s_balance SL)); cbn [negb].
  - destruct (existsb isActive (s_tasks SL)); exists []; now apply placed_same.
  - apply placeAll_places.
Qed.

End Placement.

(* ------------------------------------------------------------------ *)
(** ** One run of the engine *)

Section EngineRun.

Local Open Scope Qc_scope.

Variable rnd : nat -> Qc.
Variable allBlocks : list BlockData.
Variable rules : list IntervalRule.

(** The ledger after a run: the settled ledger with the new wagers on
    top. *)
Lemma engine_ledger (st : EngineState) (b0 : BlockData) (blocks : list BlockData) :
  allBlocks = b0 :: blocks ->
  let SL := fst (settlePass allBlocks st) in
  let updated := snd (settlePass allBlocks st) in
  exists news,
    bets (engine rnd allBlocks rules st) = news ++ updated
    /\ Forall (fun b => status b = PENDING) news
    /\ balance (engine rnd allBlocks rules st)
       = replay (s_balance SL) (map Placed (rev news))
    /\ (NoDup (keys updated) -> NoDup (keys (bets (engine rnd allBlocks rules st)))).
Proof.
  intros Hb. cbv zeta. unfold engine. rewrite Hb. rewrite <- Hb.
  pose proof (settleAll_flags allBlocks (bets st)
                (mkSL (balance st) (peakBalance (globalMetrics st))
                      (gm_maxDrawdown (globalMetrics st)) (tasks st)
                      false false false)) as HF.
  fold (settlePass allBlocks st) in HF.
  destruct (settlePass allBlocks st) as [SL updated] eqn:ES.
  cbn [fst snd] in *.
  destruct (placePass_places rnd allBlocks rules (config st) (height b0) SL updated)
    as [news HP].
  destruct (placePass rnd allBlocks rules (config st) (height b0) SL updated)
    as [P nextTasks].
  cbn [fst] in HP. destruct HP as (A & B & C & D & E & F).
  cbn [p_bets p_balance p_betsChanged] in *.
  unfold commit. cbn [bets balance].
  destruct (p_betsChanged P) eqn:EP.
  - exists news. rewrite <- A. repeat split; auto.
  - assert (Hn : news = []).
    { destruct news as [|b news]; [reflexivity|].
      assert (true = false) by (rewrite <- E; [reflexivity|discriminate]).
      discriminate. }
    subst news. exists []. specialize (D eq_refl).
    destruct HF as (_ & _ & _ & HF & _).
    rewrite <- D in HF. specialize (HF eq_refl).
    inversion HF as [[HSL Hu]]. cbn [app rev map s_balance].
    repeat split; auto.
Qed.

End EngineRun.

(* ------------------------------------------------------------------ *)
(** ** Runs: the ledger never carries a combination twice *)

Section Runs.

Local Open Scope Qc_scope.

Lemma engine_keeps_NoDup (rnd : nat -> Qc) (allBlocks : list BlockData)
      (rules : list IntervalRule) (st : EngineState) :
  NoDup (keys (bets st)) -> NoDup (keys (bets (engine rnd allBlocks rules st))).
Proof.
  intros H. destruct allBlocks as [|b0 blocks] eqn:Hb; [exact H|].
  destruct (@engine_ledger rnd (b0 :: blocks) rules st b0 blocks eq_refl)
    as (news & _ & _ & _ & Hnd).
  apply Hnd. unfold settlePass. now rewrite settleAll_keys.
Qed.

Lemma manualDuplicate_key (l : list BetRecord) (h : Z) (rule : IntervalRule) :
  In (rule_id rule, h, None) (keys l) -> manualDuplicate l h rule = true.
Proof.
  unfold keys, manualDuplicate. intros Hin.
  apply in_map_iff in Hin. destruct Hin as (b & Hk & Hb).
  apply existsb_exists. exists b. split; [assumption|].
  unfold wagerKey in Hk. inversion Hk as [[Hr Hh Ht]].
  unfold noTaskId. rewrite Ht, Z.eqb_refl, String.eqb_refl. reflexivity.
Qed.

Lemma placeManual_keeps_NoDup (st : EngineState) (h : Z) (ty : BetType)
      (target : BetTarget) (amt : Qc) (rule : IntervalRule) :
  NoDup (keys (bets st)) ->
  NoDup (keys (bets (snd (placeManual st h ty target amt rule)))).
Proof.
  intros H. destruct (manualDuplicate (bets st) h rule) eqn:Hd.
  - now rewrite placeManual_duplicate.
  - rewrite placeManual_accepted by assumption. cbn [snd bets keys map].
    constructor; [|exact H].
    intros Hin. apply (@manualDuplicate_key (bets st) h rule) in Hin. congruence.
Qed.

Lemma step_keeps_NoDup (st : EngineState) (op : Op) :
  NoDup (keys (bets st)) -> NoDup (keys (bets (step st op))).
Proof.
  destruct op; cbn [step]; intros H;
    [now apply engine_keeps_NoDup | now apply placeManual_keeps_NoDup | exact H ..].
Qed.

Lemma run_keeps_NoDup (ops : list Op) (st : EngineState) :
  NoDup (keys (bets st)) -> NoDup (keys (bets (run st ops))).
Proof.
  revert st. induction ops as [|op rest IH]; intros st H; [exact H|].
  cbn [run fold_left]. apply IH. now apply step_keeps_NoDup.
Qed.

(** C2: the ledger of an account opened empty never holds two wagers for
    the same rule, target height and source (a task id, or none for a
    manual wager), whatever the operator and the engine do.  The manual
    gateway refuses a wager whose combination is taken and leaves the state
    as it is; a run of the engine never adds a wager whose combination is
    taken. *)
Theorem no_duplicate_wagers (cfg : SimConfig) (ops : list Op) :
  NoDup (keys (bets (run (fresh cfg) ops)))
  /\ (forall st h ty target amt rule,
         In (rule_id rule, h, None) (keys (bets st)) ->
         placeManual st h ty target amt rule = (false, st))
  /\ (forall rnd allBlocks rules st,
         NoDup (keys (bets st)) ->
         NoDup (keys (bets (engine rnd allBlocks rules st)))).
Proof.
  split; [|split].
  - apply run_keeps_NoDup. constructor.
  - intros st h ty target amt rule Hin.
    apply placeManual_duplicate. now apply manualDuplicate_key.
  - intros. now apply engine_keeps_NoDup.
Qed.

End Runs.

(* ------------------------------------------------------------------ *)
(** ** Runs: the replay of the journal *)

Section Replay.

Local Open Scope Qc_scope.

Lemma skipn_length_app {A} (l l' : list A) : skipn (List.length l) (l ++ l') = l'.
Proof. induction l as [|x l IH]; cbn; auto. Qed.

Lemma firstn_length_app {A} (l l' : list A) : firstn (List.length l) (l ++ l') = l.
Proof. induction l as [|x l IH]; cbn; [reflexivity|now rewrite IH]. Qed.

Lemma journalOfStep_top (old news updated : list BetRecord) :
  List.length updated = List.length old ->
  journalOfStep old (news ++ updated)
  = settledBetween old updated ++ map Placed (rev news).
Proof.
  intros Hl. unfold journalOfStep.
  replace (List.length (news ++ updated) - List.length old)%nat
    with (List.length news) by (rewrite length_app; lia).
  now rewrite skipn_length_app, firstn_length_app.
Qed.

Lemma journalOfStep_same (l : list BetRecord) : journalOfStep l l = [].
Proof.
  change l with ([] ++ l) at 2.
  rewrite (journalOfStep_top l [] l eq_refl). cbn [rev map].
  now rewrite settledBetween_same.
Qed.

Lemma replayInvariant_same (initial : Qc) (st st' : EngineState)
      (events : list LedgerEvent) :
  balance st' = balance st -> bets st' = bets st ->
  replayInvariant initial st events ->
  replayInvariant initial st'
                  (events ++ journalOfStep (bets st) (bets st')).
Proof.
  intros Hb Hl (A & B & C). rewrite Hl, journalOfStep_same, app_nil_r.
  unfold replayInvariant. rewrite Hb, Hl. auto.
Qed.

Lemma engine_replay (initial : Qc) (rnd : nat -> Qc)
      (allBlocks : list BlockData) (rules : list IntervalRule)
      (st : EngineState) (events : list LedgerEvent) :
  replayInvariant initial st events ->
  replayInvariant initial (engine rnd allBlocks rules st)
    (events ++ journalOfStep (bets st) (bets (engine rnd allBlocks rules st))).
Proof.
  intros Hinv. destruct allBlocks as [|b0 blocks] eqn:Hb.
  - now apply replayInvariant_same.
  - rewrite <- Hb.
    destruct (@engine_ledger rnd allBlocks rules st b0 blocks Hb)
      as (news & Hl & Hp & Hbal & _).
    pose proof (settleAll_journal allBlocks (bets st)
                  (mkSL (balance st) (peakBalance (globalMetrics st))
                        (gm_maxDrawdown (globalMetrics st)) (tasks st)
                        false false false)) as HJ.
    pose proof (settleAll_length allBlocks (bets st)
                  (mkSL (balance st) (peakBalance (globalMetrics st))
                        (gm_maxDrawdown (globalMetrics st)) (tasks st)
                        false false false)) as Hlen.
    fold (settlePass allBlocks st) in HJ, Hlen.
    cbv zeta in HJ. cbn [s_balance] in HJ.
    set (SL := fst (settlePass allBlocks st)) in *.
    set (updated := snd (settlePass allBlocks st)) in *.
    destruct HJ as (J1 & J2 & J3).
    destruct Hinv as (A & B & C).
    unfold replayInvariant.
    rewrite Hl, (journalOfStep_top (bets st) news updated Hlen).
    repeat split.
    + rewrite Hbal, J1, A, <- !replay_app. reflexivity.
    + intros b Hin Hs. apply in_app_or in Hin. destruct Hin as [Hin|Hin].
      * rewrite Forall_forall in Hp. specialize (Hp b Hin). congruence.
      * apply in_or_app.
        destruct (J3 b Hin Hs) as [[Hold Hs']|Hnew].
        -- left. now apply B.
        -- right. apply in_or_app. now left.
    + apply stamped_app. split; [exact C|]. rewrite <- A.
      apply stamped_app. split; [exact J2|]. apply stamped_placed.
Qed.

Lemma placeManual_replay (initial : Qc) (st : EngineState) (h : Z)
      (ty : BetType) (target : BetTarget) (amt : Qc) (rule : IntervalRule)
      (events : list LedgerEvent) :
  replayInvariant initial st events ->
  replayInvariant initial (snd (placeManual st h ty target amt rule))
    (events ++ journalOfStep (bets st)
                             (bets (snd (placeManual st h ty target amt rule)))).
Proof.
  intros Hinv. destruct (manualDuplicate (bets st) h rule) eqn:Hd.
  - rewrite placeManual_duplicate by assumption. cbn [snd].
    now apply replayInvariant_same.
  - rewrite placeManual_accepted by assumption. cbn [snd bets].
    set (nb := mkBet None (rule_id rule) h ty target amt (cfg_odds (config st))
                     PENDING 0 0).
    change (nb :: bets st) with ([nb] ++ bets st).
    rewrite (journalOfStep_top (bets st) [nb] (bets st) eq_refl).
    rewrite settledBetween_same. cbn [rev app map].
    destruct Hinv as (A & B & C). unfold replayInvariant. cbn [balance bets].
    repeat split.
    + rewrite replay_app, <- A. reflexivity.
    + intros b [Hb|Hb] Hs.
      * subst b. cbn in Hs. congruence.
      * apply in_or_app. left. now apply B.
    + apply stamped_app. split; [exact C|]. cbn. auto.
Qed.

Lemma step_replay (initial : Qc) (st : EngineState) (op : Op)
      (events : list LedgerEvent) :
  replayInvariant initial st events ->
  replayInvariant initial (step st op)
                  (events ++ journalOfStep (bets st) (bets (step st op))).
Proof.
  intros H. destruct op; cbn [step].
  - now apply engine_replay.
  - now apply placeManual_replay.
  - now apply replayInvariant_same.
  - now apply replayInvariant_same.
  - now apply replayInvariant_same.
  - now apply replayInvariant_same.
  - now apply replayInvariant_same.
  - now apply replayInvariant_same.
Qed.

Lemma run_replay (initial : Qc) (ops : list Op) (st : EngineState)
      (events : list LedgerEvent) :
  replayInvariant initial st events ->
  replayInvariant initial (run st ops) (events ++ journal st ops).
Proof.
  revert st events. induction ops as [|op rest IH]; intros st events H.
  - cbn [run fold_left journal]. now rewrite app_nil_r.
  - cbn [run fold_left journal]. rewrite app_assoc.
    apply IH. now apply step_replay.
Qed.

(** The journal of the first part of a run is the first part of the
    journal: the replay can be stopped at any point in time. *)
Lemma journal_app (st : EngineState) (ops1 ops2 : list Op) :
  journal st (ops1 ++ ops2) = journal st ops1 ++ journal (run st ops1) ops2.
Proof.
  revert st. induction ops1 as [|op rest IH]; intros st; [reflexivity|].
  cbn [app journal run fold_left]. rewrite IH, app_assoc. reflexivity.
Qed.

(** C1: on an account opened with [initialBalance] and an empty ledger,
    replaying the journal of the wagers in the order of the events (the
    stake debited at placement, stake times odds credited at settlement
    when won, nothing when lost) gives the live balance after any run, and
    for every settled wager of the ledger the replay, stopped right after
    its settlement, gives the [balanceAfter] recorded on it. *)
Theorem replay_reproduces_balance (cfg : SimConfig) (ops : list Op) :
  let st := run (fresh cfg) ops in
  let events := journal (fresh cfg) ops in
  balance st = replay (initialBalance cfg) events
  /\ forall b, In b (bets st) -> status b <> PENDING ->
       exists pre post,
         events = pre ++ Settled b :: post
         /\ replay (initialBalance cfg) (pre ++ [Settled b]) = balanceAfter b.
Proof.
  cbv zeta.
  assert (H0 : replayInvariant (initialBalance cfg) (fresh cfg) []).
  { unfold replayInvariant, fresh. cbn. repeat split; intros; contradiction. }
  pose proof (run_replay ops H0) as (A & B & C). cbn [app] in *.
  split; [exact A|].
  intros b Hin Hs. destruct (in_split _ _ (B b Hin Hs)) as (pre & post & HJ).
  exists pre, post. split; [exact HJ|].
  rewrite HJ in C. exact (stamped_split _ _ _ _ C).
Qed.

End Replay.

(* ------------------------------------------------------------------ *)
(** ** The global stop *)

Section GlobalStop.

Local Open Scope Qc_scope.

Lemma globalStop_tripped (cfg : SimConfig) (bal : Qc) :
  stopTripped cfg bal -> globalStop cfg bal = true.
Proof.
  unfold stopTripped, globalStop. intros [[H1 H2]|[H1 H2]].
  - apply ltb_lt in H1. apply leb_le in H2. now rewrite H1, H2.
  - apply ltb_lt in H1. apply leb_le in H2. rewrite H1, H2. apply orb_true_r.
Qed.

Lemma existsb_isActive_false (ts : list AutoTask) :
  existsb isActive ts = false -> forall t, In t ts -> isActive t = false.
Proof.
  intros H t Hin. destruct (isActive t) eqn:E; [|reflexivity].
  assert (existsb isActive ts = true) by (apply existsb_exists; eauto).
  congruence.
Qed.

(** C6: when, after the settlements of a cycle, the profit has reached the
    take-profit (set above zero) or fallen to minus the stop-loss (set
    above zero), the cycle leaves every task inactive and places no wager:
    ledger and balance are those of the settlement step. *)
Theorem global_stop_halts (rnd : nat -> Qc) (allBlocks : list BlockData)
        (rules : list IntervalRule) (st : EngineState) :
  allBlocks <> [] ->
  stopTripped (config st) (balance (settle allBlocks st)) ->
  let st' := engine rnd allBlocks rules st in
  (forall t, In t (tasks st') -> isActive t = false)
  /\ bets st' = bets (settle allBlocks st)
  /\ balance st' = balance (settle allBlocks st)
  /\ keys (bets st') = keys (bets st).
Proof.
  intros Hne Hstop. cbv zeta.
  destruct allBlocks as [|b0 blocks] eqn:Hb; [congruence|]. rewrite <- Hb in *.
  rewrite (settle_eq st Hb) in Hstop. cbv zeta in Hstop. cbn [balance] in Hstop.
  apply globalStop_tripped in Hstop.
  assert (Hk : keys (bets (settle allBlocks st)) = keys (bets st)).
  { rewrite (settle_eq st Hb). cbv zeta. cbn [bets].
    unfold settlePass. apply settleAll_keys. }
  pose proof (settleAll_flags allBlocks (bets st)
                (mkSL (balance st) (peakBalance (globalMetrics st))
                      (gm_maxDrawdown (globalMetrics st)) (tasks st)
                      false false false)) as HF.
  fold (settlePass allBlocks st) in HF.
  unfold engine, settle in *. rewrite Hb in *. rewrite <- Hb in *.
  destruct (settlePass allBlocks st) as [SL updated] eqn:ES.
  cbn [fst snd] in *. destruct HF as (_ & _ & _ & _ & HT & _).
  unfold placePass. rewrite Hstop. cbn [negb].
  destruct (existsb isActive (s_tasks SL)) eqn:Ha.
  - unfold commit in *. cbn [tasks bets balance p_betsChanged p_tasksChanged
                                   p_bets p_balance] in *.
    repeat split; auto.
    intros t Hin. apply in_map_iff in Hin. destruct Hin as (t0 & <- & _).
    reflexivity.
  - unfold commit in *. cbn [tasks bets balance p_betsChanged p_tasksChanged
                                   p_bets p_balance] in *.
    repeat split; auto.
    intros t Hin. apply (existsb_isActive_false _ Ha).
    destruct (s_tasksChanged SL); [exact Hin|].
    now rewrite (HT eq_refl).
Qed.

Lemma global_stop_halts_witness :
  bets (engine (fun _ => 0) [block10] [rule1] stoppedOut)
  = bets (settle [block10] stoppedOut)
  /\ map isActive (tasks (engine (fun _ => 0) [block10] [rule1] stoppedOut))
     = [false].
Proof.
  split.
  - apply (@global_stop_halts (fun _ => 0) [block10] [rule1] stoppedOut).
    + discriminate.
    + right. split; [vm_compute; reflexivity | vm_compute; discriminate].
  - vm_compute; reflexivity.
Defined.

End GlobalStop.

(* ------------------------------------------------------------------ *)
(** ** Examples and instances *)

Section Instances.

Local Open Scope Qc_scope.

(** The flat scenario of the specification: the wager of 100 on odd at
    height 10 is won on an odd block, with payout 198 and balance 10098
    after it, and lost on an even block, with payout 0 and balance 9900. *)
Example flat_scenario_win :
  let b := last (bets (run (fresh defaults) (flatScenario block10))) noBet in
  targetHeight b = 10%Z /\ status b = WIN
  /\ amount b = Num.ofZ 100 /\ payout b = Num.ofZ 198
  /\ balanceAfter b = Num.ofZ 10098.
Proof. cbv zeta. qc_compute. Qed.

Example flat_scenario_loss :
  let b := last (bets (run (fresh defaults) (flatScenario block10even))) noBet in
  targetHeight b = 10%Z /\ status b = LOSS
  /\ amount b = Num.ofZ 100 /\ payout b = 0
  /\ balanceAfter b = Num.ofZ 9900.
Proof. cbv zeta. qc_compute. Qed.

(** Settlement does settle: the step is not idle on a pending wager whose
    block has come. *)
Example settle_settles :
  map status (bets (run (fresh defaults) [DoPlaceManual 10 PARITY T_ODD (Num.ofZ 100) rule1]))
  = [PENDING]
  /\ map status (bets (settle [block10]
                        (run (fresh defaults)
                             [DoPlaceManual 10 PARITY T_ODD (Num.ofZ 100) rule1])))
     = [WIN].
Proof. split; vm_compute; reflexivity. Qed.

Lemma replay_reproduces_balance_witness :
  let st := run (fresh defaults) demoOps in
  let b := hd noBet (bets st) in
  exists pre post,
    journal (fresh defaults) demoOps = pre ++ Settled b :: post
    /\ replay (initialBalance defaults) (pre ++ [Settled b]) = balanceAfter b.
Proof.
  cbv zeta.
  apply (proj2 (replay_reproduces_balance defaults demoOps)).
  - vm_compute. left. reflexivity.
  - vm_compute. discriminate.
Defined.

Lemma no_duplicate_wagers_witness :
  placeManual (run (fresh defaults)
                   [DoPlaceManual 10 PARITY T_ODD (Num.ofZ 100) rule1])
              10 SIZE T_BIG (Num.ofZ 5) rule1
  = (false,
     run (fresh defaults) [DoPlaceManual 10 PARITY T_ODD (Num.ofZ 100) rule1]).
Proof.
  apply (proj1 (proj2 (no_duplicate_wagers defaults []))).
  vm_compute. left. reflexivity.
Defined.

End Instances.

(* ------------------------------------------------------------------ *)
(** ** A second run on the same blocks settles nothing *)

Section SecondRun.

Local Open Scope Qc_scope.

Variable rnd : nat -> Qc.
Variable allBlocks : list BlockData.
Variable rules : list IntervalRule.
Variable cfg : SimConfig.
Variable h0 : Z.

Lemma scanRuleAI_aims (acc : Candidate * nat) (rule : IntervalRule) :
  aimsAbove h0 (fst acc) ->
  aimsAbove h0 (fst (scanRuleAI rnd allBlocks h0 acc rule)).
Proof.
  destruct acc as [best k]. unfold scanRuleAI. cbn [fst]. intros H.
  destruct (runAIAnalysis rnd k allBlocks rule) as [a k'].
  destruct (shouldPredict a); cbn [negb fst]; [|exact H].
  pose proof (getNextTargetHeight_gt h0 (value rule) (startBlock rule)) as Hgt.
  destruct (nextP a), (nextS a);
    repeat match goal with
           | |- context [if ?c then _ else _] => destruct c
           end;
    cbn; try exact H; right; exact Hgt.
Qed.

Lemma scanRuleTrend_aims (best : Candidate) (rule : IntervalRule) :
  aimsAbove h0 best -> aimsAbove h0 (scanRuleTrend allBlocks h0 best rule).
Proof.
  unfold scanRuleTrend. intros H.
  destruct (filter _ allBlocks) as [|b l]; [exact H|].
  pose proof (getNextTargetHeight_gt h0 (value rule) (startBlock rule)) as Hgt.
  repeat match goal with
         | |- context [if ?c then _ else _] => destruct c
         end;
    try exact H; right; exact Hgt.
Qed.

Lemma scanBeadRow_aims (rule : IntervalRule) (best : Candidate) (r : Z) :
  aimsAbove h0 best -> aimsAbove h0 (scanBeadRow allBlocks h0 rule best r).
Proof.
  unfold scanBeadRow. intros H.
  destruct (getBeadRowBlocks allBlocks rule r) as [|top l]; [exact H|].
  destruct (h0 <? height top + value rule * rowsOf rule)%Z eqn:Hh;
    rewrite ?andb_false_r, ?andb_true_r.
  - apply Z.ltb_lt in Hh.
    repeat match goal with
           | |- context [if ?c then _ else _] => destruct c
           end;
      try exact H; right; exact Hh.
  - exact H.
Qed.

Lemma scanRuleBead_aims (best : Candidate) (rule : IntervalRule) :
  aimsAbove h0 best -> aimsAbove h0 (scanRuleBead allBlocks h0 best rule).
Proof.
  unfold scanRuleBead.
  generalize (map Z.of_nat (seq 0 (Z.to_nat (rowsOf rule)))). intros rows.
  revert best. induction rows as [|r rows IH]; intros best H; [exact H|].
  cbn [fold_left]. apply IH. now apply scanBeadRow_aims.
Qed.

Lemma candidate_height (c : Candidate) (rule : IntervalRule) :
  aimsAbove h0 c -> c_rule c = Some rule -> (h0 < c_height c)%Z.
Proof. intros [H|H] Hr; [congruence|exact H]. Qed.

Lemma placeCandidate_targets (L : PlaceLocals) (task : AutoTask)
      (best : Candidate) (rule : IntervalRule) (conf : Z) (b : BetRecord) :
  (h0 < c_height best)%Z ->
  In b (p_bets (placeCandidate cfg L task best rule conf)) ->
  In b (p_bets L) \/ (h0 < targetHeight b)%Z.
Proof.
  unfold placeCandidate. intros Hh Hin.
  destruct (alreadyBet _ _ _ _); [now left|].
  cbn in Hin. destruct Hin as [<-|Hin]; [right; exact Hh|now left].
Qed.

(** Every wager placed by the pass aims above the head of the chain. *)
Lemma processTask_targets (L : PlaceLocals) (task : AutoTask) (b : BetRecord) :
  In b (p_bets (fst (processTask rnd allBlocks rules cfg h0 L task))) ->
  In b (p_bets L) \/ (h0 < targetHeight b)%Z.
Proof.
  unfold processTask.
  destruct (isActive task); cbn [negb fst]; [|now left].
  destruct (p_balance L <? baseBet task); [now left|].
  destruct (autoTarget (tconfig task)) eqn:Hmode.
  all: try (destruct (find _ rules) as [rule|]; [|now left];
            destruct (alreadyBet (p_bets L) _ (rule_id rule) task); [now left|];
            destruct (decideStandard rnd (p_draws L) allBlocks rule task)
              as [[[[ty target] conf]|] k'];
            cbn [fst]; [|now left];
            intros [<-|Hin]; [right; apply getNextTargetHeight_gt | now left]).
  - destruct (hasPendingOf (p_bets L) task); [now left|].
    match goal with
    | |- context [c_rule ?c] =>
        assert (Ha : aimsAbove h0 c);
        [|destruct (c_rule c) as [rule|] eqn:Hr; [|now left]]
    end.
    { generalize noCandidate (or_introl eq_refl : aimsAbove h0 noCandidate).
      induction rules as [|r rs IH]; intros c Hc; [exact Hc|].
      cbn [fold_left]. apply IH. now apply scanRuleTrend_aims. }
    destruct (minStreak (tconfig task) <=? _)%Z; [|now left].
    cbn [fst]. apply placeCandidate_targets. eapply candidate_height; eassumption.
  - destruct (hasPendingOf (p_bets L) task); [now left|].
    match goal with
    | |- context [c_rule ?c] =>
        assert (Ha : aimsAbove h0 c);
        [|destruct (c_rule c) as [rule|] eqn:Hr; [|now left]]
    end.
    { generalize noCandidate (or_introl eq_refl : aimsAbove h0 noCandidate).
      induction rules as [|r rs IH]; intros c Hc; [exact Hc|].
      cbn [fold_left]. apply IH. now apply scanRuleBead_aims. }
    destruct (minStreak (tconfig task) <=? _)%Z; [|now left].
    cbn [fst]. apply placeCandidate_targets. eapply candidate_height; eassumption.
  - destruct (hasPendingOf (p_bets L) task); [now left|].
    assert (Ha : aimsAbove h0
                   (fst (fold_left (scanRuleAI rnd allBlocks h0) rules
                                   (noCandidate, p_draws L)))).
    { generalize (noCandidate, p_draws L)
                 (or_introl eq_refl : aimsAbove h0 (fst (noCandidate, p_draws L))).
      induction rules as [|r rs IH]; intros c Hc; [exact Hc|].
      cbn [fold_left]. apply IH. now apply scanRuleAI_aims. }
    destruct (fold_left _ rules (noCandidate, p_draws L)) as [best k'].
    cbn [fst] in Ha.
    destruct (c_rule best) as [rule|] eqn:Hr; [|now left].
    destruct (94 <=? c_score best)%Z; [|now left].
    cbn [fst]. intros Hin.
    destruct (@placeCandidate_targets (withDraws L k') task best rule
                (c_score best) b (candidate_height Ha Hr) Hin) as [H|H];
      [now left|now right].
Qed.

Lemma placeAll_targets (ts : list AutoTask) (L : PlaceLocals) (b : BetRecord) :
  In b (p_bets (fst (placeAll rnd allBlocks rules cfg h0 L ts))) ->
  In b (p_bets L) \/ (h0 < targetHeight b)%Z.
Proof.
  revert L. induction ts as [|t rest IH]; intros L; cbn [placeAll].
  - now left.
  - pose proof (@processTask_targets L t b) as H1.
    destruct (processTask rnd allBlocks rules cfg h0 L t) as [L1 t'].
    specialize (IH L1).
    destruct (placeAll rnd allBlocks rules cfg h0 L1 rest) as [L2 rest'].
    cbn [fst] in *. intros Hin.
    destruct (IH Hin) as [H|H]; [now apply H1|now right].
Qed.

Lemma placePass_targets (SL : SettleLocals) (updated : list BetRecord)
      (b : BetRecord) :
  In b (p_bets (fst (placePass rnd allBlocks rules cfg h0 SL updated))) ->
  In b updated \/ (h0 < targetHeight b)%Z.
Proof.
  unfold placePass.
  destruct (globalStop cfg (s_balance SL)); cbn [negb].
  - destruct (existsb isActive (s_tasks SL)); cbn; now left.
  - intros Hin. exact (placeAll_targets _ _ _ Hin).
Qed.

End SecondRun.

Section SecondRunEngine.

Local Open Scope Qc_scope.

Variable allBlocks : list BlockData.

Lemma findBlock_above (b0 : BlockData) (blocks : list BlockData) (h : Z) :
  allBlocks = b0 :: blocks -> headIsHighest allBlocks -> (height b0 < h)%Z ->
  findBlock allBlocks h = None.
Proof.
  intros Hb Hhi Hh. unfold findBlock.
  destruct (find _ allBlocks) as [blk|] eqn:Hf; [|reflexivity].
  apply find_some in Hf. destruct Hf as [Hin Heq].
  apply Z.eqb_eq in Heq. rewrite Hb in Hhi. cbn in Hhi.
  rewrite Hb in Hin. specialize (Hhi blk Hin). lia.
Qed.

Lemma settleAll_elements_fixed (l : list BetRecord) (L : SettleLocals)
      (b : BetRecord) :
  In b (snd (settleAll allBlocks L l)) ->
  forall L2, settleOne allBlocks L2 b = (L2, b).
Proof.
  revert L. induction l as [|bet rest IH]; intros L; cbn [settleAll].
  - intros [].
  - destruct (settleOne allBlocks L bet) as [L1 bet'] eqn:E1.
    specialize (IH L1).
    destruct (settleAll allBlocks L1 rest) as [L2' rest'].
    cbn [snd] in *. intros [<-|Hin] L2.
    + pose proof (settleOne_fix allBlocks L L2 bet) as H. now rewrite E1 in H.
    + now apply IH.
Qed.

Lemma settleAll_fixed (l : list BetRecord) (L : SettleLocals) :
  (forall b, In b l -> forall L2, settleOne allBlocks L2 b = (L2, b)) ->
  settleAll allBlocks L l = (L, l).
Proof.
  induction l as [|bet rest IH]; intros H; cbn [settleAll]; [reflexivity|].
  rewrite (H bet (or_introl eq_refl) L), IH; [reflexivity|].
  intros b Hb. apply H. now right.
Qed.

Lemma settle_fixed (st : EngineState) :
  (forall b, In b (bets st) -> forall L2, settleOne allBlocks L2 b = (L2, b)) ->
  settle allBlocks st = st.
Proof.
  intros H. unfold settle. destruct allBlocks as [|b0 blocks] eqn:Hb; [reflexivity|].
  rewrite <- Hb in *. unfold settlePass. rewrite (@settleAll_fixed (bets st) _ H).
  unfold commit. cbn.
  destruct (Qc_eq_dec _ _) as [_|Hn]; [|congruence].
  now destruct st.
Qed.

(** After a run of the engine on blocks delivered highest first, the
    settlement step on the same blocks changes nothing: no wager is
    credited a second time, and the wagers just placed wait for blocks
    that are not there yet. *)
Lemma engine_then_settle (rnd : nat -> Qc) (rules : list IntervalRule)
      (st : EngineState) :
  headIsHighest allBlocks ->
  settle allBlocks (engine rnd allBlocks rules st) = engine rnd allBlocks rules st.
Proof.
  intros Hhi. apply settle_fixed. intros b Hin L2.
  destruct allBlocks as [|b0 blocks] eqn:Hb; [now apply settleOne_waiting|].
  rewrite <- Hb in *.
  assert (H : In b (snd (settlePass allBlocks st))
              \/ (height b0 < targetHeight b)%Z).
  { pose proof (settleAll_flags allBlocks (bets st)
                  (mkSL (balance st) (peakBalance (globalMetrics st))
                        (gm_maxDrawdown (globalMetrics st)) (tasks st)
                        false false false)) as HF.
    fold (settlePass allBlocks st) in HF.
    unfold engine in Hin. rewrite Hb in Hin. rewrite <- Hb in Hin.
    destruct (settlePass allBlocks st) as [SL updated] eqn:ES.
    pose proof (@placePass_targets rnd allBlocks rules (config st) (height b0)
                  SL updated b) as HP.
    destruct (placePass rnd allBlocks rules (config st) (height b0) SL updated)
      as [P nextTasks] eqn:EP.
    cbn [fst snd] in *. unfold commit in Hin. cbn [bets] in Hin.
    destruct (p_betsChanged P) eqn:EC; [now apply HP|].
    left. destruct HF as (_ & _ & _ & HF & _).
    assert (Hs : s_betsChanged SL = false).
    { destruct (s_betsChanged SL) eqn:E; [|reflexivity].
      destruct (placePass_places rnd allBlocks rules (config st) (height b0)
                                 SL updated) as [news HN].
      rewrite EP in HN. cbn [fst] in HN.
      destruct HN as (_ & _ & _ & D & F & _). cbn [p_betsChanged] in *.
      destruct news as [|n news].
      - rewrite (D eq_refl) in EC. congruence.
      - rewrite F in EC by discriminate. discriminate EC. }
    specialize (HF Hs). inversion HF as [[HSL Hu]]. exact Hin. }
  destruct H as [Hu|Hn].
  - unfold settlePass in Hu. exact (@settleAll_elements_fixed _ _ _ Hu L2).
  - apply settleOne_waiting. eapply findBlock_above; eassumption.
Qed.

End SecondRunEngine.

(* ------------------------------------------------------------------ *)
(** ** The balance read off the ledger *)

Section LedgerTotal.

Local Open Scope Qc_scope.

Lemma settleOne_total (allBlocks : list BlockData) (L : SettleLocals)
      (bet : BetRecord) :
  s_balance (fst (settleOne allBlocks L bet)) + net bet
  = s_balance L + net (snd (settleOne allBlocks L bet)).
Proof.
  unfold settleOne.
  destruct (status bet) eqn:Hs; cbn [isPending fst snd]; try reflexivity.
  destruct (findBlock allBlocks (targetHeight bet)) as [blk|];
    cbn [fst snd]; [|reflexivity].
  unfold net, replayPayout, settleRecord. rewrite Hs.
  cbn [s_balance status amount odds].
  destruct (isWinFor bet blk); ring.
Qed.

Lemma settleAll_total (allBlocks : list BlockData) (l : list BetRecord)
      (L : SettleLocals) :
  s_balance (fst (settleAll allBlocks L l)) + ledgerTotal l
  = s_balance L + ledgerTotal (snd (settleAll allBlocks L l)).
Proof.
  revert L. induction l as [|bet rest IH]; intros L; cbn [settleAll].
  - cbn. ring.
  - pose proof (settleOne_total allBlocks L bet) as H1.
    destruct (settleOne allBlocks L bet) as [L1 bet'].
    specialize (IH L1).
    destruct (settleAll allBlocks L1 rest) as [L2 rest'].
    cbn [fst snd ledgerTotal] in *.
    transitivity (s_balance L2 + ledgerTotal rest + net bet); [ring|].
    rewrite IH.
    transitivity (s_balance L1 + net bet + ledgerTotal rest'); [ring|].
    rewrite H1. ring.
Qed.

Lemma replay_placed (bal : Qc) (l : list BetRecord) :
  Forall (fun b => status b = PENDING) l ->
  replay bal (map Placed (rev l)) = bal + ledgerTotal l.
Proof.
  induction l as [|b rest IH]; intros H.
  - cbn. ring.
  - inversion H as [|? ? Hb Hrest]; subst.
    cbn [rev]. rewrite map_app, replay_app, (IH Hrest).
    cbn [map ledgerTotal]. unfold replay. cbn [fold_left applyEvent].
    unfold net, replayPayout. rewrite Hb. ring.
Qed.

Lemma ledgerTotal_app (a b : list BetRecord) :
  ledgerTotal (a ++ b) = ledgerTotal a + ledgerTotal b.
Proof.
  induction a as [|x a IH]; cbn [app ledgerTotal]; [ring|].
  rewrite IH. ring.
Qed.

Lemma engine_total (rnd : nat -> Qc) (allBlocks : list BlockData)
      (rules : list IntervalRule) (st : EngineState) (initial : Qc) :
  balance st = initial + ledgerTotal (bets st) ->
  balance (engine rnd allBlocks rules st)
  = initial + ledgerTotal (bets (engine rnd allBlocks rules st)).
Proof.
  intros H. destruct allBlocks as [|b0 blocks] eqn:Hb; [exact H|].
  rewrite <- Hb.
  destruct (@engine_ledger rnd allBlocks rules st b0 blocks Hb)
    as (news & Hl & Hp & Hbal & _).
  pose proof (settleAll_total allBlocks (bets st)
                (mkSL (balance st) (peakBalance (globalMetrics st))
                      (gm_maxDrawdown (globalMetrics st)) (tasks st)
                      false false false)) as HT.
  fold (settlePass allBlocks st) in HT. cbn [s_balance] in HT.
  rewrite Hl, Hbal, (replay_placed _ Hp), ledgerTotal_app.
  rewrite H in HT.
  transitivity (s_balance (fst (settlePass allBlocks st))
                + ledgerTotal (bets st) - ledgerTotal (bets st)
                + ledgerTotal news); [ring|].
  rewrite HT. ring.
Qed.

Lemma step_total (st : EngineState) (op : Op) (initial : Qc) :
  balance st = initial + ledgerTotal (bets st) ->
  balance (step st op) = initial + ledgerTotal (bets (step st op)).
Proof.
  intros H. destruct op; cbn [step]; try exact H.
  - now apply engine_total.
  - destruct (manualDuplicate (bets st) h rule) eqn:Hd.
    + now rewrite placeManual_duplicate.
    + rewrite placeManual_accepted by assumption.
      cbn [snd balance bets ledgerTotal]. rewrite H.
      unfold net, replayPayout. cbn [status amount]. ring.
Qed.

(** After any run the balance is the opening balance, less the stakes of
    all the wagers of the ledger, plus stake times odds for those that are
    won. *)
Lemma balance_is_ledger_total (cfg : SimConfig) (ops : list Op) :
  balance (run (fresh cfg) ops)
  = initialBalance cfg + ledgerTotal (bets (run (fresh cfg) ops)).
Proof.
  assert (H : forall st, balance st = initialBalance cfg + ledgerTotal (bets st) ->
                         balance (run st ops)
                         = initialBalance cfg + ledgerTotal (bets (run st ops))).
  { induction ops as [|op rest IH]; intros st H; [exact H|].
    cbn [run fold_left]. apply IH. now apply step_total. }
  apply H. cbn. ring.
Qed.

End LedgerTotal.


(* ================================================================== *)
(** * Further properties of the embedded code *)

(* ------------------------------------------------------------------ *)
(** ** Rule alignment and streaks *)

Section AlignmentMore.

Lemma aligned_multiple (h' : Z) (rule : IntervalRule) :
  (1 < value rule)%Z -> (0 <= startBlock rule)%Z ->
  checkRuleAlignment h' rule = true ->
  exists k, (h' = startBlock rule + k * value rule)%Z.
Proof.
  intros Hv Ho. unfold checkRuleAlignment.
  destruct (Z.leb_spec (value rule) 1); [lia|].
  destruct (Z.ltb_spec 0 (startBlock rule)).
  - intros Ha. apply andb_prop in Ha. destruct Ha as [_ Ha].
    apply Z.eqb_eq in Ha.
    exists (Z.quot (h' - startBlock rule) (value rule)).
    pose proof (Z.quot_rem' (h' - startBlock rule) (value rule)). lia.
  - intros Ha. apply Z.eqb_eq in Ha.
    exists (Z.quot h' (value rule)).
    pose proof (Z.quot_rem' h' (value rule)). lia.
Qed.

(** X1: the next target never skips an aligned height.  For a rule with a
    start block of zero or more, every aligned height above [h] is at
    least the next target after [h], which is itself above [h]. *)
Theorem nextAligned_least (rule : IntervalRule) (h h' : Z) :
  (0 <= startBlock rule)%Z ->
  checkRuleAlignment h' rule = true -> (h < h')%Z ->
  (h < nextAligned h rule <= h')%Z.
Proof.
  intros Ho Ha Hlt. split; [apply getNextTargetHeight_gt|].
  unfold nextAligned.
  destruct (Z.leb_spec (value rule) 1) as [Hv|Hv].
  - unfold getNextTargetHeight.
    destruct (Z.leb_spec (value rule) 1); lia.
  - rewrite getNextTargetHeight_eq by assumption.
    destruct (aligned_multiple h' rule Hv Ho Ha) as [k Hk].
    set (s := value rule) in *. set (o := startBlock rule) in *.
    assert ((h - o) / s < k)%Z.
    { apply Z.div_lt_upper_bound; [lia|]. nia. }
    nia.
Qed.

Lemma nextAligned_least_witness : (25 < nextAligned 25 rule20 <= 60)%Z.
Proof.
  apply (@nextAligned_least rule20 25 60); [vm_compute; discriminate | reflexivity | reflexivity].
Defined.

Lemma countLeading_spec (ty : BetType) (v : BetTarget) (blocks : list BlockData) :
  exists n : nat,
    countLeading ty v blocks = Z.of_nat n
    /\ (n <= List.length blocks)%nat
    /\ Forall (fun b => axisValue ty b = v) (firstn n blocks)
    /\ (forall b, nth_error blocks n = Some b -> axisValue ty b <> v).
Proof.
  induction blocks as [|b rest IH]; cbn [countLeading].
  - exists 0%nat. repeat split; auto. intros b H. discriminate H.
  - destruct (BetTarget_eqb (axisValue ty b) v) eqn:E.
    + destruct IH as (n & Hn & Hl & Hf & Hs).
      exists (S n). repeat split.
      * rewrite Hn. lia.
      * cbn. lia.
      * cbn [firstn]. constructor; [|exact Hf].
        destruct (axisValue ty b), v; cbn in E; congruence.
      * exact Hs.
    + exists 0%nat. repeat split; auto; [cbn; lia|].
      intros b' H. cbn in H. inversion H; subst.
      intros Heq. rewrite Heq in E. destruct v; discriminate.
Qed.

(** X2: the streak of a block list.  On an empty list it is [null] with
    count 0.  Otherwise its value is that of the first block, its count
    [n] is at least 1 and at most the number of blocks, the first [n]
    blocks all carry the value, and the block after them, if there is one,
    does not. *)
Theorem calculateStreak_spec (ty : BetType) (blocks : list BlockData) :
  match blocks with
  | [] => calculateStreak blocks ty = (None, 0%Z)
  | b0 :: _ =>
      exists n : nat,
        calculateStreak blocks ty = (Some (axisValue ty b0), Z.of_nat n)
        /\ (1 <= n <= List.length blocks)%nat
        /\ Forall (fun b => axisValue ty b = axisValue ty b0) (firstn n blocks)
        /\ (forall b, nth_error blocks n = Some b ->
                      axisValue ty b <> axisValue ty b0)
  end.
Proof.
  destruct blocks as [|b0 rest]; [reflexivity|].
  destruct (countLeading_spec ty (axisValue ty b0) (b0 :: rest))
    as (n & Hn & Hl & Hf & Hs).
  exists n. unfold calculateStreak. rewrite Hn. repeat split; auto.
  destruct n as [|n]; [|lia].
  exfalso. apply (Hs b0); reflexivity.
Qed.

End AlignmentMore.


(* ------------------------------------------------------------------ *)
(** ** The staking progressions *)

Section Progressions.

Local Open Scope Qc_scope.

Lemma floor_le (x : Qc) : Num.floor x <= x.
Proof. unfold Num.floor, Qcle. rewrite this_ofZ. apply Qfloor_le. Qed.

(** An integer at or below a number is at or below its floor. *)
Lemma floor_above (x y : Qc) : Num.floor x <= y -> Num.floor x <= Num.floor y.
Proof.
  unfold Num.floor, Qcle. rewrite !this_ofZ. intros H.
  rewrite <- Zle_Qle.
  rewrite <- (Qfloor_Z (Qfloor x)). now apply Qfloor_resp_le.
Qed.

Lemma floor_mono (x y : Qc) : x <= y -> Num.floor x <= Num.floor y.
Proof.
  intros H. apply floor_above. eapply Qcle_trans; [apply floor_le|exact H].
Qed.

Lemma nthNum_in_range (l : list Qc) (i : Z) (bound : Qc) :
  Forall (fun x => bound <= x) l ->
  (0 <= i < lengthZ l)%Z -> bound <= nthNum l i.
Proof.
  intros Hf Hi. unfold nthNum, lengthZ in *.
  destruct (Z.ltb_spec i 0); [lia|].
  rewrite Forall_forall in Hf. apply Hf. apply nth_In. lia.
Qed.

(** A win or a loss under a sequence strategy leaves the index inside the
    table. *)
Lemma advance_index_table (cfg : StrategyConfig) (base : Qc)
      (st : StrategyState) (isWin : bool) (table : list Qc) :
  tableOf cfg = Some table -> table <> [] ->
  (0 <= sequenceIndex st < lengthZ table)%Z ->
  (0 <= sequenceIndex (advance cfg base st isWin) < lengthZ table)%Z.
Proof.
  unfold tableOf, advance. intros Ht Hne Hi.
  destruct (sc_type cfg); try discriminate Ht; inversion Ht; subst table; clear Ht.
  - (* FIBONACCI *)
    change (lengthZ FIB_SEQ) with 15%Z in *.
    destruct isWin; cbn [negb sequenceIndex]; lia.
  - (* 1-3-2-6 *)
    change (lengthZ SEQ_1326) with 4%Z in *.
    destruct isWin; cbn [sequenceIndex]; [|lia].
    destruct (Z.leb_spec 4 (sequenceIndex st + 1)); cbn [sequenceIndex]; lia.
  - (* CUSTOM *)
    set (cSeq := match customSequence cfg with Some s => s | None => [1] end) in *.
    assert (0 < lengthZ cSeq)%Z.
    { unfold lengthZ. destruct cSeq; [congruence|cbn; lia]. }
    destruct isWin; cbn [negb sequenceIndex]; [lia|].
    destruct (Z.leb_spec (lengthZ cSeq) (sequenceIndex st + 1));
      cbn [sequenceIndex]; lia.
Qed.

(** X3: the index of a sequence strategy stays inside its table.  From an
    index inside the table, a win or a loss under FIBONACCI, 1-3-2-6 or
    CUSTOM (with a non-empty sequence) leaves the index inside the table,
    so the multiplier is always read from the table; under PAROLI the
    index stays between 0 and 2. *)
Theorem advance_index_in_table (cfg : StrategyConfig) (base : Qc)
        (st : StrategyState) (isWin : bool) :
  let st' := advance cfg base st isWin in
  (forall table, tableOf cfg = Some table -> table <> [] ->
     (0 <= sequenceIndex st < lengthZ table)%Z ->
     (0 <= sequenceIndex st' < lengthZ table)%Z)
  /\ (sc_type cfg = PAROLI -> (0 <= sequenceIndex st <= 2)%Z ->
      (0 <= sequenceIndex st' <= 2)%Z).
Proof.
  cbv zeta. split.
  - intros table. apply advance_index_table.
  - unfold advance. intros Hty Hi. rewrite Hty.
    destruct isWin; cbn [sequenceIndex]; [|lia].
    destruct (Z.leb_spec 3 (sequenceIndex st + 1)); cbn [sequenceIndex]; lia.
Qed.

Lemma advance_index_in_table_witness :
  (0 <= sequenceIndex (advance (mkStrategy FIBONACCI FIXED_ODD PARITY (Num.ofZ 2) 10
                                           (Num.ofZ 10) 1 None None)
                               (Num.ofZ 100) (mkState 0 (Num.ofZ 100) 14) false)
   < lengthZ FIB_SEQ)%Z.
Proof.
  apply (proj1 (advance_index_in_table
                  (mkStrategy FIBONACCI FIXED_ODD PARITY (Num.ofZ 2) 10
                              (Num.ofZ 10) 1 None None)
                  (Num.ofZ 100) (mkState 0 (Num.ofZ 100) 14) false) FIB_SEQ).
  - reflexivity.
  - discriminate.
  - vm_compute. split; [discriminate|reflexivity].
Defined.

(** X4: under MARTINGALE with a cycle length of one or more, the loss
    streak stays below the cycle length: it is put back to 0 on a win and
    on the loss that would make it reach the cycle length. *)
Theorem martingale_streak_below_cycle (cfg : StrategyConfig) (base : Qc)
        (st : StrategyState) (isWin : bool) :
  sc_type cfg = MARTINGALE -> (1 <= maxCycle cfg)%Z ->
  (0 <= consecutiveLosses st < maxCycle cfg)%Z ->
  (0 <= consecutiveLosses (advance cfg base st isWin) < maxCycle cfg)%Z
  /\ (consecutiveLosses (advance cfg base st isWin) = 0%Z
      \/ (isWin = false
          /\ consecutiveLosses (advance cfg base st isWin)
             = (consecutiveLosses st + 1)%Z)).
Proof.
  intros Hty Hm Hc. unfold advance. rewrite Hty.
  destruct isWin; cbn [negb consecutiveLosses]; [split; [lia|now left]|].
  destruct (Z.leb_spec (maxCycle cfg) (consecutiveLosses st + 1));
    cbn [consecutiveLosses].
  - split; [lia|now left].
  - split; [lia|]. right. split; reflexivity.
Qed.

Lemma martingale_streak_below_cycle_witness :
  (0 <= consecutiveLosses (advance martingale3 (Num.ofZ 100)
                                   (mkState 2 (Num.ofZ 400) 0) false) < 3)%Z.
Proof.
  apply (@martingale_streak_below_cycle martingale3 (Num.ofZ 100)
           (mkState 2 (Num.ofZ 400) 0) false); [reflexivity | vm_compute; discriminate |].
  vm_compute. split; [discriminate|reflexivity].
Defined.

Lemma FIB_SEQ_ge_1 : Forall (fun x => 1 <= x) FIB_SEQ.
Proof. unfold FIB_SEQ. repeat constructor; vm_compute; discriminate. Qed.

Lemma SEQ_1326_ge_1 : Forall (fun x => 1 <= x) SEQ_1326.
Proof. unfold SEQ_1326. repeat constructor; vm_compute; discriminate. Qed.

Lemma scale_up (base m : Qc) : 0 <= base -> 1 <= m -> base <= base * m.
Proof.
  intros Hb Hm.
  replace base with (1 * base) at 1 by ring.
  rewrite (Qcmult_comm base m). now apply Qcmult_le_compat_r.
Qed.

(** X5: the stake of a progression never falls below the floored base
    stake.  With a base of zero or more, a martingale multiplier of one or
    more, a step of zero or more and custom multipliers of one or more,
    a state whose stake is at least the floored base and whose index lies
    in its table keeps a stake of at least the floored base after any win
    or loss, under every strategy. *)
Theorem advance_stake_at_least_base (cfg : StrategyConfig) (base : Qc)
        (st : StrategyState) (isWin : bool) :
  0 <= base -> 1 <= multiplier cfg -> 0 <= sc_step cfg ->
  (forall table, tableOf cfg = Some table ->
     table <> [] /\ Forall (fun x => 1 <= x) table
     /\ (0 <= sequenceIndex st < lengthZ table)%Z) ->
  Num.floor base <= currentBetAmount st ->
  Num.floor base <= currentBetAmount (advance cfg base st isWin).
Proof.
  intros Hb Hm Hs Ht Hc.
  assert (Hfb : 0 <= Num.floor base).
  { change 0 with (Num.floor (Num.ofZ 0)). now apply floor_mono. }
  assert (Hc0 : 0 <= currentBetAmount st) by (eapply Qcle_trans; eassumption).
  pose proof (fun table => @advance_index_table cfg base st isWin table) as Hidx.
  unfold tableOf in Ht, Hidx. unfold advance in *.
  destruct (sc_type cfg) eqn:Hty; cbn [currentBetAmount sequenceIndex] in *.
  - (* MANUAL *) apply Qcle_refl.
  - (* MARTINGALE *)
    destruct isWin; cbn [negb]; [apply Qcle_refl|].
    destruct (maxCycle cfg <=? consecutiveLosses st + 1)%Z; [apply Qcle_refl|].
    apply floor_above. eapply Qcle_trans; [exact Hc|]. now apply scale_up.
  - (* DALEMBERT *)
    destruct isWin; cbn [negb].
    + apply floor_mono.
      destruct (currentBetAmount st - sc_step cfg <? base) eqn:E;
        [apply Qcle_refl|]. now apply ltb_ge in E.
    + apply floor_above. eapply Qcle_trans; [exact Hc|].
      replace (currentBetAmount st) with (currentBetAmount st + 0) at 1 by ring.
      apply Qcplus_le_compat; [apply Qcle_refl|exact Hs].
  - (* FLAT *) apply Qcle_refl.
  - (* FIBONACCI *)
    destruct (Ht _ eq_refl) as (Hne & Hall & Hi).
    specialize (Hidx _ eq_refl Hne Hi).
    apply floor_mono. apply scale_up; [assumption|].
    now apply nthNum_in_range.
  - (* PAROLI *)
    destruct isWin; [|apply Qcle_refl].
    destruct (3 <=? sequenceIndex st + 1)%Z; [apply Qcle_refl|].
    apply floor_above. eapply Qcle_trans; [exact Hc|].
    apply scale_up; [assumption|vm_compute; discriminate].
  - (* 1-3-2-6 *)
    destruct (Ht _ eq_refl) as (Hne & Hall & Hi).
    specialize (Hidx _ eq_refl Hne Hi).
    destruct isWin; [|apply Qcle_refl].
    destruct (lengthZ SEQ_1326 <=? sequenceIndex st + 1)%Z eqn:E;
      [apply Qcle_refl|].
    cbn [sequenceIndex] in Hidx.
    apply floor_mono. apply scale_up; [assumption|].
    now apply nthNum_in_range.
  - (* CUSTOM *)
    destruct (Ht _ eq_refl) as (Hne & Hall & Hi).
    specialize (Hidx _ eq_refl Hne Hi).
    apply floor_mono. apply scale_up; [assumption|].
    now apply nthNum_in_range.
  - (* AI_KELLY *) apply floor_le.
Qed.

Lemma advance_stake_at_least_base_witness :
  Num.floor (Num.ofZ 100)
  <= currentBetAmount (advance martingale3 (Num.ofZ 100)
                               (mkState 1 (Num.ofZ 200) 0) false).
Proof.
  apply (@advance_stake_at_least_base martingale3 (Num.ofZ 100)
           (mkState 1 (Num.ofZ 200) 0) false).
  - vm_compute; discriminate.
  - vm_compute; discriminate.
  - vm_compute; discriminate.
  - intros table H. discriminate H.
  - vm_compute; discriminate.
Defined.

End Progressions.


(* ------------------------------------------------------------------ *)
(** ** Task statistics *)

Section Statistics.

Local Open Scope Qc_scope.

Lemma max_lub (x y z : Qc) : x <= z -> y <= z -> Num.max x y <= z.
Proof. unfold Num.max. destruct (x <? y); auto. Qed.

Lemma min_l (x y : Qc) : Num.min x y <= x.
Proof.
  unfold Num.min. destruct (y <? x) eqn:E; [|apply Qcle_refl].
  apply Qclt_le_weak. now apply ltb_lt.
Qed.

Lemma orElse_zero (x : Qc) : Num.orElse x 0 = x.
Proof. unfold Num.orElse. destruct (Qc_eq_dec x 0); congruence. Qed.

(** X6: what the settlement of one wager does to the statistics of its
    task.  Exactly one of wins and losses goes up by one, the profit moves
    by the payout less the stake, the total staked goes up by the stake;
    the records only move one way (highest profit and peak up, lowest
    profit down, largest drawdown up) and bracket the new profit; the
    largest drawdown covers the distance from the peak to the new profit
    and is never negative afterwards. *)
Theorem updateStats_records (s : TaskStats) (isWin : bool) (pay amt : Qc) :
  let s' := updateStats s isWin pay amt in
  (wins s' = wins s + (if isWin then 1 else 0))%Z
  /\ (losses s' = losses s + (if isWin then 0 else 1))%Z
  /\ profit s' = profit s + ((if isWin then pay else 0) - amt)
  /\ totalBetAmount s' = totalBetAmount s + amt
  /\ maxProfit s <= maxProfit s' /\ profit s' <= maxProfit s'
  /\ maxLoss s' <= maxLoss s /\ maxLoss s' <= profit s'
  /\ peakProfit s <= peakProfit s' /\ profit s' <= peakProfit s'
  /\ maxDrawdown s <= maxDrawdown s'
  /\ peakProfit s' - profit s' <= maxDrawdown s'
  /\ 0 <= maxDrawdown s'.
Proof.
  cbv zeta. unfold updateStats.
  cbn [wins losses profit totalBetAmount maxProfit maxLoss peakProfit maxDrawdown].
  rewrite orElse_zero.
  set (p := profit s + ((if isWin then pay else 0) - amt)).
  repeat split; try reflexivity;
    try apply max_l; try apply max_r; try apply min_l; try apply min_r.
  eapply Qcle_trans; [|apply max_r].
  assert (H : p <= Num.max (peakProfit s) p) by apply max_r.
  revert H. generalize (Num.max (peakProfit s) p). intros m H. qc_lra.
Qed.

End Statistics.

(* ------------------------------------------------------------------ *)
(** ** The heuristic predictor: what it can return *)

Section PredictorOutput.

Local Open Scope Z_scope.

Lemma checkPeriodicity_tier (seq : string) (t : BetTarget) (c : Z) :
  checkPeriodicity seq = Some (t, c) -> c = 91 \/ c = 93.
Proof.
  unfold checkPeriodicity.
  repeat match goal with
         | |- context [if ?b then Some _ else _] => destruct b
         end; intros H; inversion H; auto.
Qed.

Lemma checkDensity_tier (seq : string) (t : BetTarget) (c : Z) :
  checkDensity seq = Some (t, c) -> c = 95.
Proof.
  unfold checkDensity.
  repeat match goal with
         | |- context [if ?b then Some _ else _] => destruct b
         end; intros H; inversion H; auto.
Qed.

Lemma getBayesianConf_tier (bias : F64.float) :
  getBayesianConf bias = 94 \/ getBayesianConf bias = 88
  \/ getBayesianConf bias = 50.
Proof.
  unfold getBayesianConf.
  repeat match goal with
         | |- context [if ?b then _ else _] => destruct b
         end; auto.
Qed.

Lemma axisSignal_tiered (seq : string) (bias : F64.float)
      (over under : BetTarget) :
  tiered (axisSignal seq bias over under).
Proof.
  unfold axisSignal, tiered.
  destruct (checkPeriodicity seq) as [[t c]|] eqn:Ep.
  - right. exists t, c. split; [reflexivity|].
    destruct (checkPeriodicity_tier _ Ep); auto.
  - destruct (checkDensity seq) as [[t c]|] eqn:Ed.
    + right. exists t, c. split; [reflexivity|].
      rewrite (checkDensity_tier _ Ed). auto.
    + destruct (getBayesianConf_tier bias) as [H|[H|H]]; rewrite H; cbn.
      * right. eexists _, _. split; [reflexivity|]. auto.
      * now left.
      * now left.
Qed.

(** After the mutual exclusion each axis is cleared or carries a target at
    a tier, and one of them is cleared. *)
Lemma singleBest_exclusive (p s : option BetTarget * Z) :
  tiered p -> tiered s ->
  let r := singleBest p s in
  (fst r = (None, 0) \/ snd r = (None, 0))
  /\ (fst r = (None, 0)
      \/ exists t c, fst r = (Some t, c) /\ (c = 91 \/ c = 93 \/ c = 94 \/ c = 95))
  /\ (snd r = (None, 0)
      \/ exists t c, snd r = (Some t, c) /\ (c = 91 \/ c = 93 \/ c = 94 \/ c = 95)).
Proof.
  intros Hp Hs. cbv zeta. unfold singleBest.
  destruct Hp as [->|(tp & cp & -> & Hcp)];
    destruct Hs as [->|(ts & cs & -> & Hcs)].
  - cbn. auto.
  - destruct (Z.ltb_spec cs 50); [lia|].
    destruct (Z.ltb_spec 50 cs); [|lia].
    cbn. repeat split; auto. right. eauto.
  - destruct (Z.ltb_spec 50 cp); [|lia].
    cbn. repeat split; auto. right. eauto.
  - destruct (Z.ltb_spec cs cp); cbn.
    + repeat split; auto. right. eauto.
    + destruct (Z.ltb_spec cp cs); cbn.
      * repeat split; auto. right. eauto.
      * destruct (Z.leb_spec 90 cp); [|lia].
        cbn. repeat split; auto. right. eauto.
Qed.

(** X7: what the predictor can return.  At most one axis carries a
    target; an axis without a target has confidence 0, an axis with a
    target has confidence 91, 93, 94 or 95; when [shouldPredict] is true
    exactly one axis carries a target and its confidence is 93, 94 or 95;
    the call makes one draw at most, and none when fewer than 24 aligned
    blocks are at hand, in which case nothing is predicted. *)
Theorem runAIAnalysis_output (rnd : nat -> Qc) (k : nat)
        (blocks : list BlockData) (rule : IntervalRule) :
  let a := fst (runAIAnalysis rnd k blocks rule) in
  let k' := snd (runAIAnalysis rnd k blocks rule) in
  (nextP a = None \/ nextS a = None)
  /\ (nextP a = None -> confP a = 0)
  /\ (nextS a = None -> confS a = 0)
  /\ (nextP a <> None -> confP a = 91 \/ confP a = 93 \/ confP a = 94 \/ confP a = 95)
  /\ (nextS a <> None -> confS a = 91 \/ confS a = 93 \/ confS a = 94 \/ confS a = 95)
  /\ (shouldPredict a = true ->
      (nextP a <> None /\ 93 <= confP a) \/ (nextS a <> None /\ 93 <= confS a))
  /\ (k' = k \/ k' = S k)
  /\ (lengthZ (filter (fun b => checkRuleAlignment (height b) rule) blocks) < 24 ->
      shouldPredict a = false /\ k' = k).
Proof.
  cbv zeta. unfold runAIAnalysis.
  set (ruleBlocks := firstn 80 (filter _ blocks)).
  destruct (Z.ltb_spec (lengthZ ruleBlocks) 24) as [Hlt|Hge].
  - cbn. repeat split; auto; try congruence.
  - match goal with
    | |- context [singleBest ?p ?s] =>
        pose proof (@singleBest_exclusive p s (axisSignal_tiered _ _ _ _)
                      (axisSignal_tiered _ _ _ _)) as H;
        destruct (singleBest p s) as [[nP cP] [nS cS]]
    end.
    cbv zeta in H. cbn [fst snd nextP nextS confP confS shouldPredict] in *.
    destruct H as (Hx & HP & HS).
    assert (HPn : nP = None -> cP = 0).
    { intros ->. destruct HP as [HP|(t & c & HP & _)]; congruence. }
    assert (HSn : nS = None -> cS = 0).
    { intros ->. destruct HS as [HS|(t & c & HS & _)]; congruence. }
    assert (HPs : nP <> None -> cP = 91 \/ cP = 93 \/ cP = 94 \/ cP = 95).
    { intros Hn. destruct HP as [HP|(t & c & HP & Hc)]; [congruence|].
      inversion HP; subst; exact Hc. }
    assert (HSs : nS <> None -> cS = 91 \/ cS = 93 \/ cS = 94 \/ cS = 95).
    { intros Hn. destruct HS as [HS|(t & c & HS & Hc)]; [congruence|].
      inversion HS; subst; exact Hc. }
    split; [destruct Hx as [Hx|Hx]; inversion Hx; auto|].
    split; [exact HPn|]. split; [exact HSn|].
    split; [exact HPs|]. split; [exact HSs|].
    split; [|split; [now right|]].
    + intros Hsp. apply andb_prop in Hsp. destruct Hsp as [Hsp _].
      apply orb_prop in Hsp. destruct Hsp as [Hsp|Hsp]; apply Z.leb_le in Hsp.
      * left. destruct nP as [t|]; [|specialize (HPn eq_refl); lia].
        split; [discriminate|].
        assert (Some t <> None) as Hn by discriminate. specialize (HPs Hn). lia.
      * right. destruct nS as [t|]; [|specialize (HSn eq_refl); lia].
        split; [discriminate|].
        assert (Some t <> None) as Hn by discriminate. specialize (HSs Hn). lia.
    + intros Hfew. exfalso. unfold ruleBlocks, lengthZ in *.
      rewrite length_firstn in Hge. lia.
Qed.

Lemma runAIAnalysis_output_witness :
  shouldPredict (fst (runAIAnalysis (fun _ => 0%Qc) 5 (firstn 10 oddRun) rule1)) = false
  /\ snd (runAIAnalysis (fun _ => 0%Qc) 5 (firstn 10 oddRun) rule1) = 5%nat.
Proof.
  apply (runAIAnalysis_output (fun _ => 0%Qc) 5 (firstn 10 oddRun) rule1).
  vm_compute. reflexivity.
Defined.

End PredictorOutput.


(* ------------------------------------------------------------------ *)
(** ** Sorting and the block window *)

Section Window.

Lemma insertDesc_perm (x : BlockData) (l : list BlockData) :
  Permutation (x :: l) (insertDesc x l).
Proof.
  induction l as [|y rest IH]; cbn [insertDesc]; [reflexivity|].
  destruct (height x <? height y)%Z; [|reflexivity].
  rewrite perm_swap. now constructor.
Qed.

Lemma sortDesc_perm (l : list BlockData) : Permutation l (sortDesc l).
Proof.
  induction l as [|x rest IH]; cbn [sortDesc fold_right]; [reflexivity|].
  rewrite <- insertDesc_perm. now constructor.
Qed.

Lemma insertDesc_sorted (x : BlockData) (l : list BlockData) :
  descending l -> descending (insertDesc x l).
Proof.
  unfold descending. induction l as [|y rest IH]; intros Hs; cbn [insertDesc].
  - repeat constructor.
  - inversion Hs as [|? ? Hrest Hall]; subst.
    destruct (Z.ltb_spec (height x) (height y)).
    + constructor; [now apply IH|].
      rewrite Forall_forall in *. intros z Hz.
      apply (Permutation_in _ (Permutation_sym (insertDesc_perm x rest))) in Hz.
      destruct Hz as [<-|Hz]; [lia|now apply Hall].
    + constructor; [exact Hs|].
      constructor; [lia|].
      rewrite Forall_forall in *. intros z Hz. specialize (Hall z Hz). lia.
Qed.

Lemma sortDesc_sorted (l : list BlockData) : descending (sortDesc l).
Proof.
  induction l as [|x rest IH]; cbn [sortDesc fold_right].
  - constructor.
  - now apply insertDesc_sorted.
Qed.

Lemma firstn_sorted {A} (R : A -> A -> Prop) (n : nat) (l : list A) :
  StronglySorted R l -> StronglySorted R (firstn n l).
Proof.
  revert n. induction l as [|x rest IH]; intros n Hs.
  - rewrite firstn_nil. constructor.
  - destruct n as [|n]; [constructor|].
    inversion Hs as [|? ? Hrest Hall]; subst. cbn [firstn].
    constructor; [now apply IH|].
    rewrite Forall_forall in *. intros z Hz. apply Hall.
    eapply (In_nth_error) in Hz. destruct Hz as [i Hi].
    apply nth_error_In with (n := i).
    rewrite nth_error_firstn in Hi. destruct (i <? n)%nat; [exact Hi|discriminate].
Qed.

Lemma firstn_incl {A} (n : nat) (l : list A) (x : A) :
  In x (firstn n l) -> In x l.
Proof.
  intros H. rewrite <- (firstn_skipn n l). apply in_or_app. now left.
Qed.

Lemma uniqueByHeight_spec (combined acc : list BlockData) :
  NoDup (map height acc) ->
  let r := uniqueByHeight combined acc in
  NoDup (map height r)
  /\ (forall b, In b r -> In b acc \/ In b combined)
  /\ (forall b, In b acc -> In b r)
  /\ (forall b, In b combined -> exists b', In b' r /\ height b' = height b).
Proof.
  revert acc. induction combined as [|b rest IH]; intros acc Hnd; cbn [uniqueByHeight].
  - repeat split; auto. intros b [].
  - destruct (existsb (fun x => (height x =? height b)%Z) acc) eqn:E.
    + destruct (IH acc Hnd) as (A & B & C & D). repeat split; auto.
      * intros b' Hb'. destruct (B b' Hb'); [now left|right; now right].
      * intros b' [Heq'|Hb']; [subst b'|now apply D].
        apply existsb_exists in E. destruct E as (x & Hx & Heq).
        apply Z.eqb_eq in Heq. exists x. split; [now apply C|exact Heq].
    + assert (Hnd' : NoDup (map height (acc ++ [b]))).
      { rewrite map_app. cbn [map].
        apply NoDup_app; [exact Hnd | repeat constructor; intros [] |].
        intros h Hin [<-|[]].
        apply in_map_iff in Hin. destruct Hin as (x & Hx & Hin).
        assert (existsb (fun x => (height x =? height b)%Z) acc = true).
        { apply existsb_exists. exists x. split; [exact Hin|]. now apply Z.eqb_eq. }
        congruence. }
      destruct (IH (acc ++ [b]) Hnd') as (A & B & C & D). repeat split; auto.
      * intros b' Hb'. destruct (B b' Hb') as [H|H]; [|right; now right].
        apply in_app_or in H. destruct H as [H|[<-|[]]]; [now left|right; now left].
      * intros b' Hb'. apply C. apply in_or_app. now left.
      * intros b' [Heq'|Hb']; [subst b'|now apply D].
        exists b. split; [|reflexivity]. apply C. apply in_or_app. right. now left.
Qed.

Lemma uniqueByHeight_app (a b acc : list BlockData) :
  uniqueByHeight (a ++ b) acc = uniqueByHeight b (uniqueByHeight a acc).
Proof.
  revert acc. induction a as [|x rest IH]; intros acc; cbn [app uniqueByHeight];
    [reflexivity|apply IH].
Qed.

(** A block that enters the map finds no block of its height in it. *)
Lemma uniqueByHeight_added (combined acc : list BlockData) (b : BlockData) :
  In b (uniqueByHeight combined acc) ->
  In b acc
  \/ (In b combined /\ forall x, In x acc -> height x <> height b).
Proof.
  revert acc. induction combined as [|c rest IH]; intros acc Hin;
    cbn [uniqueByHeight] in Hin; [now left|].
  destruct (existsb (fun x => (height x =? height c)%Z) acc) eqn:E.
  - destruct (IH acc Hin) as [H|[H1 H2]]; [now left|].
    right. split; [now right|exact H2].
  - destruct (IH (acc ++ [c]) Hin) as [H|[H1 H2]].
    + apply in_app_or in H. destruct H as [H|[<-|[]]]; [now left|].
      right. split; [now left|].
      intros x Hx Heq.
      assert (existsb (fun x => (height x =? height c)%Z) acc = true).
      { apply existsb_exists. exists x. split; [exact Hx|]. now apply Z.eqb_eq. }
      congruence.
    + right. split; [now right|].
      intros x Hx. apply H2. apply in_or_app. now left.
Qed.

Lemma descending_strict (l : list BlockData) :
  descending l -> NoDup (map height l) -> strictlyDescending l.
Proof.
  unfold descending, strictlyDescending.
  induction l as [|x rest IH]; intros Hs Hnd; [constructor|].
  inversion Hs as [|? ? Hrest Hall]; subst.
  cbn [map] in Hnd. inversion Hnd as [|? ? Hnotin Hnd']; subst.
  constructor; [now apply IH|].
  rewrite Forall_forall in *. intros z Hz. specialize (Hall z Hz).
  assert (height z <> height x).
  { intros Heq. apply Hnotin. rewrite <- Heq. now apply in_map. }
  lia.
Qed.

Lemma strict_head_highest (l : list BlockData) :
  strictlyDescending l -> headIsHighest l.
Proof.
  unfold strictlyDescending, headIsHighest.
  destruct l as [|b0 rest]; [trivial|].
  intros Hs b [<-|Hb]; [lia|].
  inversion Hs as [|? ? _ Hall]; subst.
  rewrite Forall_forall in Hall. specialize (Hall b Hb). lia.
Qed.

Lemma mergeBlocks_strict (newBlocks prev : list BlockData) :
  strictlyDescending (mergeBlocks newBlocks prev).
Proof.
  unfold mergeBlocks.
  apply firstn_sorted. apply descending_strict; [apply sortDesc_sorted|].
  eapply Permutation_NoDup; [apply Permutation_map, sortDesc_perm|].
  apply (uniqueByHeight_spec (newBlocks ++ prev) []). constructor.
Qed.

(** X8: the block window kept by the application.  After a merge the
    window is strictly descending in height (so it holds one block per
    height and its head is the highest block), it holds 3000 blocks at
    most, every block of it comes from the new blocks or from the old
    window, and an old block is kept only for a height that no new block
    has. *)
Theorem mergeBlocks_window (newBlocks prev : list BlockData) :
  let w := mergeBlocks newBlocks prev in
  strictlyDescending w
  /\ headIsHighest w
  /\ (List.length w <= 3000)%nat
  /\ (forall b, In b w ->
       In b newBlocks
       \/ (In b prev /\ forall x, In x newBlocks -> height x <> height b)).
Proof.
  cbv zeta.
  split; [apply mergeBlocks_strict|].
  split; [apply strict_head_highest, mergeBlocks_strict|].
  unfold mergeBlocks.
  set (u := uniqueByHeight (newBlocks ++ prev) []).
  split; [apply firstn_le_length|].
  intros b Hb. apply firstn_incl in Hb.
  apply (Permutation_in _ (Permutation_sym (sortDesc_perm u))) in Hb.
  unfold u in Hb. rewrite uniqueByHeight_app in Hb.
  apply uniqueByHeight_added in Hb. destruct Hb as [Hb|[Hb Hno]].
  - left. apply uniqueByHeight_added in Hb. destruct Hb as [[]|[Hb _]]. exact Hb.
  - right. split; [exact Hb|].
    intros x Hx Heq.
    destruct (proj2 (proj2 (proj2 (uniqueByHeight_spec newBlocks [] (NoDup_nil _))))
                    x Hx) as (x' & Hx' & Hh).
    apply (Hno x' Hx'). congruence.
Qed.

(** X9: on the window kept by the application a settlement is never
    repeated: after a run of the engine on a merged window, the settlement
    step on the same window leaves the state as it is. *)
Theorem settlement_stable_on_window (rnd : nat -> Qc)
        (newBlocks prev : list BlockData) (rules : list IntervalRule)
        (st : EngineState) :
  let w := mergeBlocks newBlocks prev in
  settle w (engine rnd w rules st) = engine rnd w rules st.
Proof.
  cbv zeta. apply engine_then_settle.
  apply strict_head_highest, mergeBlocks_strict.
Qed.

End Window.


(* ------------------------------------------------------------------ *)
(** ** The heights of the back-fill *)

Section BackFill.

Local Open Scope Z_scope.

(** X10: the back-fill only asks for blocks of the rule.  Every height in
    the list is aligned to the rule, is above zero and not below the start
    block; with a step of one or more no height is above the latest
    block. *)
Theorem targetHeights_aligned (latestHeight : Z) (rule : IntervalRule) (h : Z) :
  In h (targetHeights latestHeight rule) ->
  checkRuleAlignment h rule = true
  /\ 0 < h /\ startBlock rule <= h
  /\ (1 <= value rule -> h <= latestHeight).
Proof.
  unfold targetHeights. generalize (seq 0 100). intros l Hin.
  apply filter_In in Hin. destruct Hin as [Hin Hf].
  apply andb_prop in Hf. destruct Hf as [Hpos Hsb].
  apply Z.ltb_lt in Hpos.
  apply in_map_iff in Hin. destruct Hin as (i & Hh & _).
  assert (Hstart : startBlock rule <= h).
  { apply orb_prop in Hsb. destruct Hsb as [Hsb|Hsb].
    - apply Z.eqb_eq in Hsb. lia.
    - now apply Z.leb_le in Hsb. }
  split; [|split; [exact Hpos|split; [exact Hstart|]]].
  - unfold checkRuleAlignment.
    destruct (Z.leb_spec (value rule) 1) as [Hv|Hv]; [reflexivity|].
    destruct (Z.ltb_spec 1 (value rule)) as [_|]; [|lia].
    destruct (Z.ltb_spec 0 (startBlock rule)) as [Hs|Hs].
    + apply andb_true_intro. split; [now apply Z.leb_le|].
      apply Z.eqb_eq. subst h.
      replace (startBlock rule + (latestHeight - startBlock rule) / value rule * value rule
               - Z.of_nat i * value rule - startBlock rule)
        with (((latestHeight - startBlock rule) / value rule - Z.of_nat i) * value rule)
        by ring.
      apply Z.rem_mul. lia.
    + apply Z.eqb_eq. subst h.
      replace (latestHeight / value rule * value rule - Z.of_nat i * value rule)
        with ((latestHeight / value rule - Z.of_nat i) * value rule) by ring.
      apply Z.rem_mul. lia.
  - intros Hv. subst h.
    destruct (Z.ltb_spec 1 (value rule)) as [Hv1|Hv1].
    + destruct (Z.ltb_spec 0 (startBlock rule)).
      * pose proof (Z.mul_div_le (latestHeight - startBlock rule) (value rule)
                      ltac:(lia)). nia.
      * pose proof (Z.mul_div_le latestHeight (value rule) ltac:(lia)). nia.
    + nia.
Qed.

Lemma targetHeights_aligned_witness :
  checkRuleAlignment 40 rule20 = true /\ 0 < 40.
Proof.
  destruct (@targetHeights_aligned 45 rule20 40) as (A & B & _).
  - vm_compute. left. reflexivity.
  - exact (conj A B).
Defined.

End BackFill.

(* ------------------------------------------------------------------ *)
(** ** The rows of the bead road *)

Section BeadRows.

Local Open Scope Z_scope.

Lemma getBeadRowBlocks_In (blocks : list BlockData) (rule : IntervalRule)
      (r : Z) (b : BlockData) :
  In b (getBeadRowBlocks blocks rule r) <->
  In b blocks
  /\ ((1 <? value rule)
      && (((0 <? startBlock rule) && (height b <? startBlock rule))
          || ((0 <? startBlock rule)
              && negb (Z.rem (height b - startBlock rule) (value rule) =? 0))
          || ((startBlock rule =? 0)
              && negb (Z.rem (height b) (value rule) =? 0))) = false)
  /\ inBeadRow rule r b.
Proof.
  unfold getBeadRowBlocks, inBeadRow. split.
  - intros H.
    apply (Permutation_in _ (Permutation_sym (sortDesc_perm _))) in H.
    apply filter_In in H. destruct H as [Hin Hf]. split; [exact Hin|].
    destruct ((1 <? value rule) && _) eqn:E; [discriminate|].
    split; [reflexivity|].
    destruct (Z.eqb_spec (value rule) 0); [discriminate|].
    split; [assumption|]. now apply Z.eqb_eq.
  - intros (Hin & E & Hv & Hr).
    apply (Permutation_in _ (sortDesc_perm _)).
    apply filter_In. split; [exact Hin|].
    rewrite E. destruct (Z.eqb_spec (value rule) 0); [congruence|].
    now apply Z.eqb_eq.
Qed.

(** X11: a row of the bead road.  The blocks of a row come from the
    blocks at hand, highest first; each lies in the row; with a start
    block of zero or more each is aligned to the rule. *)
Theorem getBeadRowBlocks_sound (blocks : list BlockData) (rule : IntervalRule)
        (r : Z) :
  descending (getBeadRowBlocks blocks rule r)
  /\ forall b, In b (getBeadRowBlocks blocks rule r) ->
       In b blocks /\ inBeadRow rule r b
       /\ (0 <= startBlock rule -> checkRuleAlignment (height b) rule = true).
Proof.
  split; [apply sortDesc_sorted|].
  intros b Hb. apply getBeadRowBlocks_In in Hb. destruct Hb as (Hin & E & Hrow).
  split; [exact Hin|]. split; [exact Hrow|].
  intros Hs. unfold checkRuleAlignment.
  destruct (Z.leb_spec (value rule) 1) as [|Hv]; [reflexivity|].
  destruct (Z.ltb_spec 1 (value rule)); [|lia]. cbn [andb] in E.
  apply orb_false_elim in E. destruct E as [E E3].
  apply orb_false_elim in E. destruct E as [E1 E2].
  destruct (Z.ltb_spec 0 (startBlock rule)) as [Hpos|Hz]; cbn [andb] in *.
  - apply Z.ltb_ge in E1. apply negb_false_iff in E2.
    rewrite E2. apply andb_true_intro. split; [now apply Z.leb_le|reflexivity].
  - assert (startBlock rule = 0) as H0 by lia.
    rewrite H0, Z.eqb_refl in E3. cbn [andb] in E3.
    now apply negb_false_iff in E3.
Qed.

Lemma getBeadRowBlocks_sound_witness :
  checkRuleAlignment (height (mkBlock 40 ODD BIG)) rule20 = true.
Proof.
  apply (proj2 (getBeadRowBlocks_sound [mkBlock 40 ODD BIG; mkBlock 41 EVEN BIG]
                                       rule20 2) (mkBlock 40 ODD BIG)).
  - vm_compute. left. reflexivity.
  - vm_compute. discriminate.
Defined.

(** X12: the rows share out the blocks of the rule.  With a step and a
    number of rows above zero, every aligned block at or above a start
    block of zero or more lies in exactly one of the rows 0 .. rows - 1. *)
Theorem getBeadRowBlocks_partition (blocks : list BlockData)
        (rule : IntervalRule) (b : BlockData) :
  0 < value rule -> 0 < rowsOf rule ->
  0 <= startBlock rule <= height b ->
  In b blocks -> checkRuleAlignment (height b) rule = true ->
  exists r, 0 <= r < rowsOf rule
            /\ In b (getBeadRowBlocks blocks rule r)
            /\ forall r', In b (getBeadRowBlocks blocks rule r') -> r' = r.
Proof.
  intros Hv Hrows Hs Hin Ha.
  set (idx := (height b - startBlock rule) / value rule).
  assert (Hidx : 0 <= idx) by (apply Z.div_pos; lia).
  exists (Z.rem idx (rowsOf rule)). split.
  - apply Z.rem_bound_pos; lia.
  - split.
    + apply getBeadRowBlocks_In. split; [exact Hin|]. split.
      * unfold checkRuleAlignment in Ha.
        destruct (Z.ltb_spec 1 (value rule)) as [Hv1|]; [|reflexivity].
        destruct (Z.leb_spec (value rule) 1); [lia|]. cbn [andb].
        destruct (Z.ltb_spec 0 (startBlock rule)); cbn [andb].
        -- apply andb_prop in Ha. destruct Ha as [Ha1 Ha2].
           apply Z.leb_le in Ha1. rewrite Ha2. cbn.
           destruct (Z.ltb_spec (height b) (startBlock rule)); [lia|].
           cbn. destruct (Z.eqb_spec (startBlock rule) 0); [lia|reflexivity].
        -- rewrite Ha. cbn. destruct (startBlock rule =? 0); reflexivity.
      * unfold inBeadRow. split; [lia|reflexivity].
    + intros r' Hr'. apply getBeadRowBlocks_In in Hr'.
      destruct Hr' as (_ & _ & _ & Hr'). now rewrite <- Hr'.
Qed.

Lemma getBeadRowBlocks_partition_witness :
  exists r, 0 <= r < rowsOf rule20
            /\ In (mkBlock 40 ODD BIG)
                  (getBeadRowBlocks [mkBlock 40 ODD BIG; mkBlock 41 EVEN BIG] rule20 r).
Proof.
  destruct (@getBeadRowBlocks_partition [mkBlock 40 ODD BIG; mkBlock 41 EVEN BIG]
              rule20 (mkBlock 40 ODD BIG)) as (r & Hr & Hin & _).
  - reflexivity.
  - reflexivity.
  - vm_compute. split; discriminate.
  - left. reflexivity.
  - reflexivity.
  - exists r. split; assumption.
Defined.

End BeadRows.

